(** * BoostedFactorization: the corpus-construction helpers ([src/helpers.py])

    A shallow embedding of [sampling], [read_matrix] and the [DeepWalker]
    class, followed by the properties of the walk sampler, the pair
    extractor, the aggregator/pruner and the matrix assembler.

    Conventions of the embedding.
    - Python integers are [Z]; node ids are the integers read from the
      edge list.
    - A Python exception is a value [Raise e] of the [result] type.
    - Dictionaries whose iteration order is observable (the adjacency
      structure of the graph, the argument of [sampling]) are association
      lists in insertion order; dictionaries that are only looked up and
      filtered (the [Counter] of pairs) are [gmap]s.
    - Python floats are the binary64 values of [SpecFloat], with its
      addition and comparisons.
    - The process-wide random generator is an oracle [nat -> nat]: the
      [n]-th call of [random.sample] receives the [n]-th draw, and the
      number of calls made so far is threaded through as state. *)

From stdpp Require Import gmap list fin_maps.
From Stdlib Require Import ZArith QArith Lia Lqa SpecFloat.

Local Open Scope Z_scope.

(** ** Exceptions *)

Inductive exn : Type :=
| IndexError
| ValueError
| NetworkXError
| AssertionError
| TypeError
| OutOfFuel. (* not a Python exception: a loop budget of the model ran out *)

Inductive result (A : Type) : Type :=
| Ok (a : A)
| Raise (e : exn).

Arguments Ok {A} a.
Arguments Raise {A} e.

Global Instance result_ret : MRet result := λ A a, Ok a.

Global Instance result_bind : MBind result := λ A B k c,
  match c with
  | Ok a => k a
  | Raise e => Raise e
  end.

(** ** Python lists *)

Module PyList.

  (** [range(lo, hi)] *)
Definition range (lo hi : Z) : list Z :=
    (λ k : nat, lo + Z.of_nat k) <$> seq 0 (Z.to_nat (hi - lo)).

  (** Normalisation of a slice bound against a list of length [n]: a
      negative bound counts from the end, and every bound is clamped to
      [0 .. n]. *)
Definition clamp (n i : Z) : Z :=
    if i <? 0 then Z.max 0 (i + n) else Z.min i n.

  (** [l[start:stop]] *)
Definition slice {A : Type} (l : list A) (start stop : Z) : list A :=
    let n := Z.of_nat (length l) in
    let a := clamp n start in
    let b := clamp n stop in
    take (Z.to_nat (b - a)) (drop (Z.to_nat a) l).

  (** [l[start:]] *)
Definition slice_from {A : Type} (l : list A) (start : Z) : list A :=
    slice l start (Z.of_nat (length l)).

  (** [l[i]] for an index produced by [enumerate] (never negative) *)
Definition getitem {A : Type} (l : list A) (i : nat) : result A :=
    match l !! i with
    | Some x => Ok x
    | None => Raise IndexError
    end.

  (** [enumerate(l)], counting from [i] *)
Fixpoint enumerate_from {A : Type} (i : nat) (l : list A) : list (nat * A) :=
    match l with
    | [] => []
    | x :: l' => (i, x) :: enumerate_from (S i) l'
    end.

Definition enumerate {A : Type} (l : list A) : list (nat * A) :=
    enumerate_from 0 l.

  (** [[f x for x in l]], where [f] may raise: the elements are evaluated
      from left to right and the first exception is the result. *)
Fixpoint comprehension {A B : Type} (f : A → result B) (l : list A) : result (list B) :=
    match l with
    | [] => Ok []
    | x :: l' =>
        y ← f x;
        ys ← comprehension f l';
        Ok (y :: ys)
    end.

  (** [for x in xs: s = body(x, s)], where the body may raise *)
Fixpoint for_each {X S : Type} (body : X → S → result S) (xs : list X) (s : S) : result S :=
    match xs with
    | [] => Ok s
    | x :: xs' =>
        s' ← body x s;
        for_each body xs' s'
    end.

  (** [l[-1]] *)
Definition last_item {A : Type} (l : list A) : result A :=
    match last l with
    | Some x => Ok x
    | None => Raise IndexError
    end.

  (** [max(l)] and [min(l)] on integers; both raise [ValueError] on an
      empty sequence. *)
Definition max (l : list Z) : result Z :=
    match l with
    | [] => Raise ValueError
    | x :: l' => Ok (foldl Z.max x l')
    end.

Definition min (l : list Z) : result Z :=
    match l with
    | [] => Raise ValueError
    | x :: l' => Ok (foldl Z.min x l')
    end.

End PyList.

(** ** The pair extractor: [DeepWalker.processor] *)

Module Processor.

Definition pair : Type := Z * Z.

  (** The body of the loop over [omega]. *)
Definition step (walk : list Z) (omega : Z) (pairs : list pair) : result (list pair) :=
    let sources := PyList.slice walk 0 (Z.of_nat (length walk) - omega) in
    let nebs := PyList.slice_from walk omega in
    fwd ← PyList.comprehension
                (λ '(i, source), neb ← PyList.getitem nebs i; Ok (source, neb))
                (PyList.enumerate sources);
    let pairs := pairs ++ fwd in
    bwd ← PyList.comprehension
                (λ '(i, source), neb ← PyList.getitem nebs i; Ok (neb, source))
                (PyList.enumerate sources);
    Ok (pairs ++ bwd).

Definition processor (window_size : Z) (walk : list Z) : result (list pair) :=
    PyList.for_each (step walk) (PyList.range 1 (window_size + 1)) [].

End Processor.

(** ** The graph store: [networkx.from_edgelist] and [networkx.neighbors]

    [networkx.Graph] keeps a dictionary [_adj] from each node to the
    dictionary of its neighbours.  Both levels iterate in insertion order,
    which is the order [G.nodes()] and [nx.neighbors] expose. *)

Module Graph.

Definition t : Type := list (Z * list Z).

Fixpoint lookup (G : t) (n : Z) : option (list Z) :=
    match G with
    | [] => None
    | (m, nbrs) :: G' => if decide (m = n) then Some nbrs else lookup G' n
    end.

  (** [if u not in self._node: self._adj[u] = {}] *)
Definition add_node (G : t) (u : Z) : t :=
    match lookup G u with
    | Some _ => G
    | None => G ++ [(u, [])]
    end.

  (** [d[v] = datadict] on the neighbour dictionary [d]: a key that is
      already present keeps its position. *)
Definition set_key (nbrs : list Z) (v : Z) : list Z :=
    if decide (v ∈ nbrs) then nbrs else nbrs ++ [v].

  (** [self._adj[u][v] = datadict] *)
Fixpoint set_adj (G : t) (u v : Z) : t :=
    match G with
    | [] => []
    | (m, nbrs) :: G' =>
        if decide (m = u) then (m, set_key nbrs v) :: G'
        else (m, nbrs) :: set_adj G' u v
    end.

Definition add_edge (G : t) (e : Z * Z) : t :=
    let '(u, v) := e in
    let G := add_node G u in
    let G := add_node G v in
    let G := set_adj G u v in
    set_adj G v u.

Definition from_edgelist (edgelist : list (Z * Z)) : t :=
    foldl add_edge [] edgelist.

  (** [G.nodes()] *)
Definition nodes (G : t) : list Z := G.*1.

  (** [nx.neighbors(G, n)] *)
Definition neighbors (G : t) (n : Z) : result (list Z) :=
    match lookup G n with
    | Some nbrs => Ok nbrs
    | None => Raise NetworkXError
    end.

End Graph.

(** ** The random generator *)

Module Random.

  (** [random.sample(population, 1)] as the call number [s] of the run:
      the oracle's draw selects the position.  An empty population raises
      [ValueError], as in Python. *)
Definition sample1 {A : Type} (rng : nat → nat) (population : list A) (s : nat)
    : result (list A * nat) :=
    match population !! (rng s mod length population)%nat with
    | Some x => Ok ([x], S s)
    | None => Raise ValueError
    end.

End Random.

(** ** 32-bit floats holding integers

    The matrices store integers with [dtype=np.float32]: numpy turns each
    Python integer into a C double and the double into a float, so the
    integer is rounded to 53 significant bits and the result to 24, each
    time to nearest with ties to even.  The float is kept as the integer it
    is equal to (integers of magnitude below [2^127], as all 64-bit values
    are, so never an infinity). *)

Module Float32.

  (** Rounding of an integer to [p] significant bits, to nearest and ties
      to even. *)
Definition round_to (p : Z) (n : Z) : Z :=
    let a := Z.abs n in
    if a <? 2 ^ p then n
    else
      let e := Z.log2 a - (p - 1) in
      let q := Z.shiftr a e in
      let r := Z.land a (Z.ones e) in
      let half := 2 ^ (e - 1) in
      let q' := if (half <? r) || ((half =? r) && Z.odd q) then q + 1 else q in
      Z.sgn n * Z.shiftl q' e.

Definition of_int (n : Z) : Z := round_to 24 (round_to 53 n).

  (** Addition of two floats that hold integers. *)
Definition add (x y : Z) : Z := round_to 24 (x + y).

End Float32.

(** ** Sparse matrices: [scipy.sparse.coo_matrix] and [csr_matrix] *)

Module Sparse.

Section WithValues.

Context {V : Type}.
    (** addition of the matrix dtype, used when duplicates are summed *)
Variable vadd : V → V → V.

Record coo : Type := Coo {
      coo_shape : Z * Z;
      coo_row : list Z;
      coo_col : list Z;
      coo_data : list V
    }.

Record csr : Type := Csr {
      csr_shape : Z * Z;
      csr_data : gmap (Z * Z) V
    }.

    (** [coo_matrix((data, (row, col)), shape=shape)]: the shape must not
        be negative, the three arrays must have one length and, when there
        is an entry, every index must lie inside the shape. *)
Definition coo_matrix (data : list V) (row col : list Z) (shape : Z * Z) : result coo :=
      if (shape.1 <? 0) || (shape.2 <? 0) then Raise ValueError
      else if negb ((length row =? length data)%nat && (length col =? length data)%nat)
      then Raise ValueError
      else if (0 <? length data)%nat then
        rmax ← PyList.max row;
        cmax ← PyList.max col;
        rmin ← PyList.min row;
        cmin ← PyList.min col;
        if shape.1 <=? rmax then Raise ValueError
        else if shape.2 <=? cmax then Raise ValueError
        else if rmin <? 0 then Raise ValueError
        else if cmin <? 0 then Raise ValueError
        else Ok (Coo shape row col data)
      else Ok (Coo shape row col data).

    (** One entry of the triplet form is added to the compressed form;
        entries that share a coordinate are summed. *)
Definition accumulate (m : gmap (Z * Z) V) (entry : (Z * Z) * V) : gmap (Z * Z) V :=
      let '(k, v) := entry in
      match m !! k with
      | Some x => <[k := vadd x v]> m
      | None => <[k := v]> m
      end.

    (** [csr_matrix(A)] for a triplet matrix [A] *)
Definition csr_matrix (A : coo) : csr :=
      Csr (coo_shape A)
          (foldl accumulate ∅ (zip (zip (coo_row A) (coo_col A)) (coo_data A))).

    (** Number of stored entries, [A.nnz] *)
Definition nnz (A : csr) : nat := size (csr_data A).

    (** The stored entry at a coordinate, if any *)
Definition stored (A : csr) (i j : Z) : option V := csr_data A !! (i, j).

End WithValues.

Arguments coo : clear implicits.
Arguments csr : clear implicits.

  (** [A[i, j]] for a matrix of integer-valued floats: an absent entry
      reads as zero. *)
Definition get (A : csr Z) (i j : Z) : Z := default 0 (stored A i j).

End Sparse.

(** ** The [DeepWalker] class *)

Module DeepWalker.

Record Args : Type := MkArgs {
    walk_length : Z;
    number_of_walks : Z;
    window_size : Z;
    pruning_threshold : Z
  }.

  (** [Counter(stream)]: every element of the stream adds one to its key. *)
Definition count_one (c : gmap (Z * Z) Z) (k : Z * Z) : gmap (Z * Z) Z :=
    <[k := default 0 (c !! k) + 1]> c.

Definition Counter (stream : list (Z * Z)) : gmap (Z * Z) Z :=
    foldl count_one ∅ stream.

  (** [{k: v for k, v in container.items() if v > threshold}] *)
Definition prune (threshold : Z) (c : gmap (Z * Z) Z) : gmap (Z * Z) Z :=
    filter (λ kv, threshold < kv.2) c.

Section WithRun.

Variable args : Args.
Variable rng : nat → nat.

    (** The [while] loop of [do_a_walk].  [fuel] bounds the number of
        iterations; [do_a_walk] supplies [walk_length] of them. *)
Fixpoint walk_loop (G : Graph.t) (fuel : nat) (nodes : list Z) (s : nat)
      : result (list Z * nat) :=
      if Z.of_nat (length nodes) <? walk_length args then
        match fuel with
        | O => Raise OutOfFuel
        | S fuel' =>
            cur ← PyList.last_item nodes;
            nebs ← Graph.neighbors G cur;
            if (0 <? length nebs)%nat then
              '(picked, s') ← Random.sample1 rng nebs s;
              walk_loop G fuel' (nodes ++ picked) s'
            else Ok (nodes, s)
        end
      else Ok (nodes, s).

Definition do_a_walk (G : Graph.t) (node : Z) (s : nat) : result (list Z * nat) :=
      walk_loop G (Z.to_nat (walk_length args)) [node] s.

    (** The state of [do_walks] is the list [self.walks] and the number of
        draws taken from the generator. *)
Definition do_walks (G : Graph.t) (s : nat) : result (list (list Z) * nat) :=
      PyList.for_each
        (λ (_ : Z) st,
           PyList.for_each
             (λ node '(walks, s),
                '(walk, s') ← do_a_walk G node s;
                Ok (walks ++ [walk], s'))
             (Graph.nodes G) st)
        (PyList.range 0 (number_of_walks args)) ([], s).

Definition processor (walk : list Z) : result (list (Z * Z)) :=
      Processor.processor (window_size args) walk.

    (** The part of [do_processing] that builds the pruned mapping. *)
Definition pair_lists (walks : list (list Z)) : result (list (list (Z * Z))) :=
      PyList.for_each
        (λ walk container, pairs ← processor walk; Ok (container ++ [pairs]))
        walks [].

Definition container_of (lists : list (list (Z * Z))) : gmap (Z * Z) Z :=
      prune (pruning_threshold args) (Counter (concat lists)).

Definition do_processing (shape : Z * Z) (walks : list (list Z)) : result (Sparse.csr Z) :=
      lists ← pair_lists walks;
      let container := container_of lists in
      let items := map_to_list container in
      let index_1 := (λ kv, kv.1.1) <$> items in
      let index_2 := (λ kv, kv.1.2) <$> items in
      let scores := (λ kv, kv.2) <$> items in
      A ← Sparse.coo_matrix (Float32.of_int <$> scores) index_1 index_2 shape;
      Ok (Sparse.csr_matrix Float32.add A).

    (** The attributes of a constructed [DeepWalker]. *)
Record t : Type := Mk {
      graph : Graph.t;
      shape : Z * Z;
      walks : list (list Z);
      A : Sparse.csr Z
    }.

    (** [DeepWalker(args)], on the rows of the edge list file. *)
Definition init (edgelist : list (Z * Z)) : result t :=
      let graph := Graph.from_edgelist edgelist in
      let n := Z.of_nat (length (Graph.nodes graph)) in
      let shape := (n, n) in
      '(walks, _) ← do_walks graph 0%nat;
      A ← do_processing shape walks;
      Ok (Mk graph shape walks A).

End WithRun.

End DeepWalker.

(** ** Python floats *)

Module Float64.

Definition t : Type := spec_float.

Definition prec : Z := 53.
Definition emax : Z := 1024.

Definition zero : t := S754_zero false.

  (** [float(n)] for an integer [n] *)
Definition of_int (n : Z) : t := binary_normalize prec emax n 0 false.

  (** [x + y], [x / y], [x <= y] and [x < y] on floats *)
Definition add (x y : t) : t := SFadd prec emax x y.
Definition div (x y : t) : t := SFdiv prec emax x y.
Definition leb (x y : t) : bool := SFleb x y.


End Float64.

(** ** [sampling]

    The loop is written once over any numbers with an addition and a
    comparison; [sampling] is the loop on Python floats.  The mapping is
    the list of its items in iteration order, [prob] is the value of
    [random.random()], and the integer [0] the score starts from becomes
    the float zero at the first addition. *)

Module Sampling.

Section WithNumbers.

Context {K num : Type}.
Variable add : num → num → num.
Variable leb : num → num → bool.

Fixpoint loop_with (prob score : num) (items : list (K * num)) : result K :=
      match items with
      | [] => Raise AssertionError
      | (key, value) :: items' =>
          let score := add score value in
          if leb prob score then Ok key else loop_with prob score items'
      end.

Definition sampling_with (zero : num) (probs : list (K * num)) (prob : num) : result K :=
      loop_with prob zero probs.

End WithNumbers.

  (** [sampling(probs)] *)
Definition sampling {K : Type} (probs : list (K * Float64.t)) (prob : Float64.t) : result K :=
    sampling_with Float64.add Float64.leb Float64.zero probs prob.

End Sampling.

(** ** [read_matrix]

    [pd.read_csv(path).values] is one array of one dtype, so the rows of
    [.tolist()] are all integers when every column of the file is an
    integer column, and all floats as soon as one column (the scores, as a
    rule) holds a fraction.  On rows of floats the ids and the shape are
    floats, and the matrix constructor refuses a shape that is not made of
    integers. *)

Module ReadMatrix.

Inductive table : Type :=
| IntRows (rows : list (Z * Z * Z))
| FloatRows (rows : list (Float64.t * Float64.t * Float64.t)).

  (** The function on rows of integers. *)
Definition read_int_rows (dataset : list (Z * Z * Z)) : result (Sparse.csr Z) :=
      let index_1 := (λ x, x.1.1) <$> dataset in
      let index_2 := (λ x, x.1.2) <$> dataset in
      let scores := (λ x, x.2) <$> dataset in
      m1 ← PyList.max index_1;
      m2 ← PyList.max index_2;
      let shape := (m1 + 1, m2 + 1) in
      A ← Sparse.coo_matrix (Float32.of_int <$> scores) index_1 index_2 shape;
      Ok (Sparse.csr_matrix Float32.add A).

  (** The function on rows of floats: [max] raises on no row; with a row,
      the shape is a pair of floats and the constructor raises. *)
Definition read_float_rows (dataset : list (Float64.t * Float64.t * Float64.t))
    : result (Sparse.csr Z) :=
      match dataset with
      | [] => Raise ValueError
      | _ :: _ => Raise TypeError
      end.

Definition read_matrix (dataset : table) : result (Sparse.csr Z) :=
      match dataset with
      | IntRows rows => read_int_rows rows
      | FloatRows rows => read_float_rows rows
      end.

End ReadMatrix.

(** * The pair sets of the specification

    The pairs the specification assigns to one window offset: position
    [i] is paired with position [i + omega], in both directions. *)

Module WindowSpec.

Definition forward_pairs (walk : list Z) (omega : nat) : list (Z * Z) :=
    (λ i : nat, (walk !!! i, walk !!! (i + omega)%nat)) <$> seq 0 (length walk - omega).

Definition backward_pairs (walk : list Z) (omega : nat) : list (Z * Z) :=
    (λ i : nat, (walk !!! (i + omega)%nat, walk !!! i)) <$> seq 0 (length walk - omega).

Definition offset_pairs (walk : list Z) (omega : nat) : list (Z * Z) :=
    forward_pairs walk omega ++ backward_pairs walk omega.

Definition window_pairs (window_size : Z) (walk : list Z) : list (Z * Z) :=
    concat ((λ omega, offset_pairs walk (Z.to_nat omega)) <$> PyList.range 1 (window_size + 1)).

End WindowSpec.

(** * Counting pairs in a stream *)

(** Number of occurrences of a pair in a list of pairs. *)
Definition occurrences (k : Z * Z) (l : list (Z * Z)) : nat :=
  length (filter (λ x, x = k) l).

(** [c[k]] on a [Counter]: a missing key reads as zero. *)
Definition count_of (c : gmap (Z * Z) Z) (k : Z * Z) : Z := default 0 (c !! k).

(** Lists built by appending blocks, each block a list of pairs followed
    by the same pairs reversed. *)
Inductive mirrored : list (Z * Z) → Prop :=
| mirrored_nil : mirrored []
| mirrored_block (pairs fwd : list (Z * Z)) :
    mirrored pairs → mirrored (pairs ++ fwd ++ (prod_swap <$> fwd)).

(** * The entries of a matrix, as the specification describes them *)

(** The values given for coordinate [k] in a list of entries, in order. *)
Definition values_at {V : Type} (k : Z * Z) (entries : list ((Z * Z) * V)) : list V :=
  (filter (λ kv, kv.1 = k) entries).*2.

(** The sum, from left to right, of a list of values; nothing for no value. *)
Definition combine {V : Type} (vadd : V → V → V) (vs : list V) : option V :=
  match vs with
  | [] => None
  | v :: vs' => Some (foldl vadd v vs')
  end.

(** * Relations on graphs used in the statements *)

(** [v] is listed among the neighbours of [u]. *)
Definition adjacent (G : Graph.t) (u v : Z) : Prop :=
  ∃ nbrs, Graph.lookup G u = Some nbrs ∧ v ∈ nbrs.

(** The two nodes are joined by a row of the edge list, in either
    orientation. *)
Definition edge_of (edgelist : list (Z * Z)) (u v : Z) : Prop :=
  (u, v) ∈ edgelist ∨ (v, u) ∈ edgelist.

(** All the nodes an edge list mentions, with repetitions. *)
Definition endpoints (edgelist : list (Z * Z)) : list Z :=
  edgelist ≫= λ e, [e.1; e.2].

(** The number of distinct nodes observed in the edge list. *)
Definition node_count (edgelist : list (Z * Z)) : nat :=
  length (remove_dups (endpoints edgelist)).

(** Every two consecutive elements of a list are related. *)
Fixpoint consecutive (R : Z → Z → Prop) (l : list Z) : Prop :=
  match l with
  | x :: (y :: _) as l' => R x y ∧ consecutive R l'
  | _ => True
  end.

(** A graph in which every listed neighbour is itself a node. *)
Definition closed (G : Graph.t) : Prop :=
  ∀ u v, adjacent G u v → v ∈ Graph.nodes G.

(** A graph without dead ends: every node lists at least one neighbour. *)
Definition no_dead_end (G : Graph.t) : Prop :=
  ∀ n, n ∈ Graph.nodes G → ∃ nbrs, Graph.neighbors G n = Ok nbrs ∧ nbrs ≠ [].

(** The walks the specification allows from [source]: at least the source,
    at most [walk_length] nodes when that is positive, along edges. *)
Definition walk_from (G : Graph.t) (walk_length : Z) (source : Z) (walk : list Z) : Prop :=
  head walk = Some source
  ∧ 1 ≤ Z.of_nat (length walk) ≤ Z.max 1 walk_length
  ∧ consecutive (adjacent G) walk
  ∧ Forall (λ x, x ∈ Graph.nodes G) walk.

(** The same configuration with another pruning threshold. *)
Definition with_threshold (args : DeepWalker.Args) (t : Z) : DeepWalker.Args :=
  DeepWalker.MkArgs (DeepWalker.walk_length args) (DeepWalker.number_of_walks args)
                    (DeepWalker.window_size args) t.

(** The node ids of an edge list are the indices [0 .. N-1]. *)
Definition dense_labels (edgelist : list (Z * Z)) : Prop :=
  Forall (λ n, 0 ≤ n < Z.of_nat (node_count edgelist)) (endpoints edgelist).

(** What [do_walks] guarantees of every walk of the corpus. *)
Definition corpus_walk (args : DeepWalker.Args) (G : Graph.t) (walk : list Z) : Prop :=
  (∃ source, source ∈ Graph.nodes G
             ∧ walk_from G (DeepWalker.walk_length args) source walk)
  ∧ (no_dead_end G →
     Z.of_nat (length walk) = Z.max 1 (DeepWalker.walk_length args)).

(** * Cumulative weights *)

(** The weight accumulated by the loop of [sampling] after the first [n]
    items, starting from [score]. *)
Definition cumulative_from {K num : Type} (add : num → num → num) (score : num)
    (probs : list (K * num)) (n : nat) : num :=
  foldl (λ score kv, add score kv.2) score (take n probs).

(** The weight [sampling] has accumulated after the first [n] items. *)
Definition cumulative {K : Type} (probs : list (K * Float64.t)) (n : nat) : Float64.t :=
  cumulative_from Float64.add Float64.zero probs n.


(** The loop of [sampling] with rationals and exact additions in place
    of the floats, for comparison. *)
Definition exact_sampling {K : Type} (probs : list (K * Q)) (prob : Q) : result K :=
  Sampling.sampling_with Qplus Qle_bool 0%Q probs prob.

(** [m] is the greatest element of [l]. *)
Definition is_maximum (m : Z) (l : list Z) : Prop :=
  m ∈ l ∧ ∀ x, x ∈ l → x ≤ m.

(** * Order of first appearance *)

(** The elements of [l] that are not in [seen] and did not occur earlier
    in [l], in the order of [l]. *)
Fixpoint fresh (seen : list Z) (l : list Z) : list Z :=
  match l with
  | [] => []
  | x :: l' => if decide (x ∈ seen) then fresh seen l' else x :: fresh (x :: seen) l'
  end.

(** The distinct elements of [l] in the order of their first occurrence. *)
Definition first_occurrences (l : list Z) : list Z := fresh [] l.

(** * Totals and per-walk results *)

(** The sum of all the counts of a counter. *)
Definition total_count (c : gmap (Z * Z) Z) : Z :=
  map_fold (λ _ v acc, v + acc) 0 c.

(** The walks on which the pair extractor returns: the window is no wider
    than the walk, or the walk has at most one node. *)
Definition processable (window_size : Z) (walk : list Z) : Prop :=
  window_size ≤ Z.of_nat (length walk) ∨ (length walk ≤ 1)%nat.

(** * The defaults of [parameter_parser]

    The options of the command line that the walker reads, at the values
    [parameter_parser] gives them when the command line sets none. *)
Definition default_args : DeepWalker.Args :=
  DeepWalker.MkArgs 80 10 3 10.

(** * Small inputs used in the examples *)

(** An edge list on the nodes 0, 1, 2, 3 in which node 3 has the single
    edge to node 0. *)
Definition tailed_triangle : list (Z * Z) := [(0, 1); (1, 2); (2, 0); (3, 0)].

(** The triangle on the nodes 0, 1, 2. *)
Definition triangle : list (Z * Z) := [(0, 1); (1, 2); (2, 0)].

(** The triangle together with the node 5, which has no edge. *)
Definition triangle_and_loner : Graph.t :=
  Graph.add_node (Graph.from_edgelist triangle) 5.

(** Walks of three nodes, one walk per node, window 1, no pruning. *)
Definition demo_args : DeepWalker.Args := DeepWalker.MkArgs 3 1 1 0.

(** The floats [1/4] and [1/2], and a mapping of three keys whose weights
    add up to one without rounding. *)
Definition one_quarter : Float64.t := Float64.div (Float64.of_int 1) (Float64.of_int 4).
Definition one_half : Float64.t := Float64.div (Float64.of_int 1) (Float64.of_int 2).


(** * Properties *)

(** ** The [result] monad *)

Lemma bind_Ok {A B : Type} (c : result A) (k : A → result B) (b : B) :
  c ≫= k = Ok b ↔ ∃ a, c = Ok a ∧ k a = Ok b.
Proof.
  destruct c as [a|e]; simpl.
  - split; [eauto | by intros (? & [= ->] & ?)].
  - split; [done | by intros (? & ? & ?)].
Qed.

(** ** Python lists *)

Lemma range_elem_of (lo hi x : Z) : x ∈ PyList.range lo hi ↔ lo ≤ x < hi.
Proof.
  unfold PyList.range. rewrite list_elem_of_fmap. split.
  - intros (k & -> & Hk). apply elem_of_seq in Hk. lia.
  - intros Hx. exists (Z.to_nat (x - lo)). split; [lia |].
    apply elem_of_seq. lia.
Qed.

(** A prefix slice [l[0:stop]] with [0 <= stop <= len(l)]. *)
Lemma slice_prefix {A : Type} (l : list A) (stop : Z) :
  0 ≤ stop ≤ Z.of_nat (length l) →
  PyList.slice l 0 stop = take (Z.to_nat stop) l.
Proof.
  intros H. unfold PyList.slice, PyList.clamp.
  destruct (Z.ltb_spec stop 0); [lia |]. simpl.
  rewrite Z.min_l by lia. rewrite Z.min_l by lia.
  by rewrite Z.sub_0_r.
Qed.

(** A prefix slice whose bound is negative counts from the end. *)
Lemma slice_prefix_negative {A : Type} (l : list A) (stop : Z) :
  stop < 0 →
  PyList.slice l 0 stop = take (Z.to_nat (stop + Z.of_nat (length l))) l.
Proof.
  intros H. unfold PyList.slice, PyList.clamp.
  destruct (Z.ltb_spec stop 0); [| lia]. simpl.
  rewrite Z.min_l by lia. rewrite Z.sub_0_r.
  f_equal. lia.
Qed.

(** A suffix slice [l[start:]] with [0 <= start]. *)
Lemma slice_from_drop {A : Type} (l : list A) (start : Z) :
  0 ≤ start → PyList.slice_from l start = drop (Z.to_nat start) l.
Proof.
  intros H. unfold PyList.slice_from, PyList.slice, PyList.clamp.
  destruct (Z.ltb_spec start 0); [lia |].
  destruct (Z.ltb_spec (Z.of_nat (length l)) 0); [lia |].
  rewrite Z.min_id.
  destruct (Z.le_gt_cases start (Z.of_nat (length l))).
  - rewrite Z.min_l by lia. apply take_ge. rewrite length_drop. lia.
  - rewrite Z.min_r by lia. rewrite Z.sub_diag. simpl.
    rewrite drop_ge by lia. by rewrite drop_ge by lia.
Qed.

Lemma getitem_Some {A : Type} (l : list A) (i : nat) (x : A) :
  l !! i = Some x → PyList.getitem l i = Ok x.
Proof. unfold PyList.getitem. by intros ->. Qed.

Lemma getitem_None {A : Type} (l : list A) (i : nat) :
  l !! i = None → PyList.getitem l i = Raise IndexError.
Proof. unfold PyList.getitem. by intros ->. Qed.

Lemma for_each_app {X S : Type} (body : X → S → result S) (xs ys : list X) (s : S) :
  PyList.for_each body (xs ++ ys) s =
  PyList.for_each body xs s ≫= PyList.for_each body ys.
Proof.
  revert s. induction xs as [|x xs IH]; intros s; simpl; [done |].
  destruct (body x s); simpl; auto.
Qed.

(** The comprehensions of the pair extractor, in closed form: pairing the
    sources with [nebs[k:]] succeeds exactly when [nebs] is long enough. *)
Lemma comprehension_getitem {A B : Type} (f : A → A → B) (nebs sources : list A) (k : nat) :
  PyList.comprehension
    (λ '(i, source), neb ← PyList.getitem nebs i; Ok (f source neb))
    (PyList.enumerate_from k sources)
  = if decide (sources = [] ∨ (k + length sources ≤ length nebs)%nat)
    then Ok (zip_with f sources (drop k nebs))
    else Raise IndexError.
Proof.
  revert k. induction sources as [|x sources IH]; intros k.
  - done.
  - cbn [PyList.enumerate_from PyList.comprehension].
    destruct (nebs !! k) as [y|] eqn:Hk.
    + rewrite (getitem_Some _ _ _ Hk). simpl.
      pose proof (lookup_lt_Some _ _ _ Hk) as Hlt.
      rewrite IH. rewrite (drop_S _ _ _ Hk).
      destruct (decide (sources = [] ∨ _)) as [Hs|Hs]; simpl.
      * rewrite decide_True; [done |].
        right. destruct Hs as [->|Hs]; simpl in *; lia.
      * rewrite decide_False; [done |].
        intros [?|?]; [done |]. apply Hs. right. simpl in *. lia.
    + rewrite (getitem_None _ _ Hk). simpl.
      apply lookup_ge_None in Hk.
      rewrite decide_False; [done |].
      intros [?|?]; [done | simpl in *; lia].
Qed.

(** ** The pair extractor *)

Lemma zip_with_take_drop {A B : Type} `{Inhabited A} (f : A → A → B) (l : list A) (k : nat) :
  zip_with f (take (length l - k) l) (drop k l)
  = (λ i : nat, f (l !!! i) (l !!! (i + k)%nat)) <$> seq 0 (length l - k).
Proof.
  apply list_eq. intros i.
  rewrite lookup_zip_with, list_lookup_fmap, lookup_drop.
  destruct (decide (i < length l - k)%nat) as [Hi|Hi].
  - rewrite lookup_take_lt by done. rewrite lookup_seq_lt by done. simpl.
    destruct (lookup_lt_is_Some_2 l i) as [x Hx]; [lia |].
    destruct (lookup_lt_is_Some_2 l (k + i)) as [y Hy]; [lia |].
    rewrite Hx, Hy. simpl.
    rewrite (list_lookup_total_correct _ _ _ Hx).
    replace (i + k)%nat with (k + i)%nat by lia.
    by rewrite (list_lookup_total_correct _ _ _ Hy).
  - rewrite lookup_take_ge by lia. rewrite lookup_seq_ge by lia. done.
Qed.

Lemma zip_with_swapped {A : Type} (l1 l2 : list A) :
  zip_with (λ s n, (n, s)) l1 l2 = prod_swap <$> zip_with (λ s n, (s, n)) l1 l2.
Proof.
  revert l2. induction l1 as [|x l1 IH]; intros [|y l2]; simpl; [done..|].
  by rewrite IH.
Qed.

(** The two slices of one offset, for an offset inside the walk. *)
Lemma step_slices (walk : list Z) (omega : Z) :
  0 ≤ omega ≤ Z.of_nat (length walk) →
  PyList.slice walk 0 (Z.of_nat (length walk) - omega)
    = take (length walk - Z.to_nat omega) walk
  ∧ PyList.slice_from walk omega = drop (Z.to_nat omega) walk.
Proof.
  intros H. split.
  - rewrite slice_prefix by lia. f_equal. lia.
  - by apply slice_from_drop; lia.
Qed.

(** One offset inside the walk: the loop body appends the forward pairs
    and then the backward pairs of the specification. *)
Lemma step_inside (walk : list Z) (omega : Z) (pairs : list (Z * Z)) :
  0 ≤ omega ≤ Z.of_nat (length walk) →
  Processor.step walk omega pairs
  = Ok (pairs ++ WindowSpec.offset_pairs walk (Z.to_nat omega)).
Proof.
  intros H. unfold Processor.step.
  destruct (step_slices walk omega H) as [-> ->].
  unfold PyList.enumerate.
  rewrite (comprehension_getitem (λ s n, (s, n))).
  rewrite (comprehension_getitem (λ s n, (n, s))).
  rewrite !decide_True by (right; rewrite length_take, length_drop; lia).
  simpl. rewrite drop_0.
  rewrite (zip_with_take_drop (λ s n, (s, n))).
  rewrite (zip_with_take_drop (λ s n, (n, s))).
  by rewrite <- (assoc_L (++)).
Qed.

(** One offset beyond the walk but short of twice its length: the end of
    the source slice is negative, Python counts it from the end of the
    walk, the sources are not empty while the neighbours are, and
    [nebs[0]] raises. *)
Lemma step_beyond (walk : list Z) (omega : Z) (pairs : list (Z * Z)) :
  Z.of_nat (length walk) < omega < 2 * Z.of_nat (length walk) →
  Processor.step walk omega pairs = Raise IndexError.
Proof.
  intros H. unfold Processor.step.
  rewrite slice_prefix_negative by lia.
  rewrite slice_from_drop by lia.
  rewrite drop_ge by lia.
  unfold PyList.enumerate.
  rewrite (comprehension_getitem (λ s n, (s, n))).
  rewrite decide_False; [done |].
  intros [Hnil | Hlen].
  - apply (f_equal length) in Hnil. rewrite length_take in Hnil. simpl in Hnil. lia.
  - rewrite length_take in Hlen. simpl in Hlen. lia.
Qed.

(** One offset of at least twice the length of the walk: both slices are
    empty. *)
Lemma step_far (walk : list Z) (omega : Z) (pairs : list (Z * Z)) :
  2 * Z.of_nat (length walk) ≤ omega →
  Processor.step walk omega pairs = Ok pairs.
Proof.
  intros H. unfold Processor.step.
  destruct (decide (length walk = 0)%nat) as [Hz|Hz].
  - apply length_zero_iff_nil in Hz as ->. simpl.
    unfold PyList.slice. simpl. rewrite take_nil. simpl. by rewrite !app_nil_r.
  - rewrite slice_prefix_negative by lia.
    replace (Z.to_nat (Z.of_nat (length walk) - omega + Z.of_nat (length walk)))
      with 0%nat by lia.
    simpl. by rewrite !app_nil_r.
Qed.

(** Whenever the loop body returns, what it appended is a list of forward
    pairs followed by the same pairs reversed. *)
Lemma step_appends_mirrored (walk : list Z) (omega : Z) (pairs pairs' : list (Z * Z)) :
  Processor.step walk omega pairs = Ok pairs' →
  ∃ fwd, pairs' = pairs ++ fwd ++ (prod_swap <$> fwd).
Proof.
  unfold Processor.step, PyList.enumerate.
  rewrite (comprehension_getitem (λ s n, (s, n))).
  rewrite (comprehension_getitem (λ s n, (n, s))).
  case_decide; simpl; [| done].
  intros [= <-]. eexists. rewrite <- (assoc_L (++)). do 2 f_equal.
  apply zip_with_swapped.
Qed.

Lemma range_split (lo mid hi : Z) :
  lo ≤ mid ≤ hi → PyList.range lo hi = PyList.range lo mid ++ PyList.range mid hi.
Proof.
  intros H. unfold PyList.range.
  replace (Z.to_nat (hi - lo)) with (Z.to_nat (mid - lo) + Z.to_nat (hi - mid))%nat by lia.
  rewrite seq_app, fmap_app. f_equal.
  replace (0 + Z.to_nat (mid - lo))%nat with (Z.to_nat (mid - lo) + 0)%nat by lia.
  rewrite <- (fmap_add_seq (Z.to_nat (mid - lo)) 0), <- list_fmap_compose.
  apply list_fmap_ext. intros _ k _. simpl. lia.
Qed.

Lemma range_cons (lo hi : Z) :
  lo < hi → PyList.range lo hi = lo :: PyList.range (lo + 1) hi.
Proof.
  intros H. rewrite (range_split lo (lo + 1) hi) by lia.
  unfold PyList.range at 1. replace (Z.to_nat (lo + 1 - lo)) with 1%nat by lia.
  simpl. f_equal. lia.
Qed.

(** The loop over offsets that all lie inside the walk. *)
Lemma for_each_step_inside (walk : list Z) (offsets : list Z) (pairs : list (Z * Z)) :
  (∀ omega, omega ∈ offsets → 0 ≤ omega ≤ Z.of_nat (length walk)) →
  PyList.for_each (Processor.step walk) offsets pairs
  = Ok (pairs ++ concat ((λ omega, WindowSpec.offset_pairs walk (Z.to_nat omega)) <$> offsets)).
Proof.
  revert pairs. induction offsets as [|omega offsets IH]; intros pairs Hin; simpl.
  - by rewrite app_nil_r.
  - rewrite step_inside by (apply Hin; left). simpl.
    rewrite IH by (intros; apply Hin; by right).
    by rewrite <- (assoc_L (++)).
Qed.

Lemma processor_inside (window_size : Z) (walk : list Z) :
  window_size ≤ Z.of_nat (length walk) →
  Processor.processor window_size walk = Ok (WindowSpec.window_pairs window_size walk).
Proof.
  intros H. unfold Processor.processor, WindowSpec.window_pairs.
  rewrite for_each_step_inside; [done |].
  intros omega Hin%range_elem_of. lia.
Qed.

(** The loop over offsets that leave a walk of at most one node alone. *)
Lemma for_each_step_short (walk : list Z) (offsets : list Z) (pairs : list (Z * Z)) :
  (length walk ≤ 1)%nat →
  (∀ omega, omega ∈ offsets → 1 ≤ omega) →
  PyList.for_each (Processor.step walk) offsets pairs = Ok pairs.
Proof.
  intros Hlen. revert pairs.
  induction offsets as [|omega offsets IH]; intros pairs Hin; simpl; [done |].
  assert (1 ≤ omega) as Homega by (apply Hin; left).
  assert (Processor.step walk omega pairs = Ok pairs) as ->.
  { destruct (decide (omega = 1 ∧ length walk = 1%nat)) as [[-> Hone]|Hfar].
    - rewrite step_inside by lia. unfold WindowSpec.offset_pairs,
        WindowSpec.forward_pairs, WindowSpec.backward_pairs.
      rewrite Hone. simpl. by rewrite app_nil_r.
    - apply step_far. lia. }
  simpl. apply IH. intros; apply Hin; by right.
Qed.

Lemma processor_short (window_size : Z) (walk : list Z) :
  (length walk ≤ 1)%nat → Processor.processor window_size walk = Ok [].
Proof.
  intros H. unfold Processor.processor. apply for_each_step_short; [done |].
  intros omega Hin%range_elem_of. lia.
Qed.

(** A window wider than a walk of two or more nodes: the offset
    [len(walk) + 1] raises. *)
Lemma processor_beyond (window_size : Z) (walk : list Z) :
  (2 ≤ length walk)%nat →
  Z.of_nat (length walk) < window_size →
  Processor.processor window_size walk = Raise IndexError.
Proof.
  intros Hlen Hws. unfold Processor.processor.
  rewrite (range_split 1 (Z.of_nat (length walk) + 1) (window_size + 1)) by lia.
  rewrite for_each_app.
  rewrite for_each_step_inside by (intros omega Hin%range_elem_of; lia).
  simpl. rewrite range_cons by lia. simpl.
  rewrite step_beyond by lia. done.
Qed.

Lemma mirrored_app (l1 l2 : list (Z * Z)) :
  mirrored l1 → mirrored l2 → mirrored (l1 ++ l2).
Proof.
  intros H1 H2. induction H2 as [|pairs fwd _ IH].
  - by rewrite app_nil_r.
  - rewrite (assoc_L (++)). by constructor.
Qed.

Lemma mirrored_concat (ls : list (list (Z * Z))) :
  Forall mirrored ls → mirrored (concat ls).
Proof.
  induction 1; simpl; [constructor | by apply mirrored_app].
Qed.

Lemma for_each_step_mirrored (walk : list Z) (offsets : list Z) (pairs pairs' : list (Z * Z)) :
  mirrored pairs →
  PyList.for_each (Processor.step walk) offsets pairs = Ok pairs' →
  mirrored pairs'.
Proof.
  revert pairs. induction offsets as [|omega offsets IH]; intros pairs Hm; simpl.
  - by intros [= <-].
  - intros (mid & Hstep & Hrest)%bind_Ok.
    apply step_appends_mirrored in Hstep as [fwd ->].
    eapply IH; [| done]. by constructor.
Qed.

(** Every list the pair extractor returns is mirrored. *)
Lemma processor_mirrored (window_size : Z) (walk : list Z) (pairs : list (Z * Z)) :
  Processor.processor window_size walk = Ok pairs → mirrored pairs.
Proof. apply for_each_step_mirrored. constructor. Qed.

(** ** Counting *)

Lemma occurrences_app (k : Z * Z) (l1 l2 : list (Z * Z)) :
  occurrences k (l1 ++ l2) = (occurrences k l1 + occurrences k l2)%nat.
Proof. unfold occurrences. by rewrite filter_app, length_app. Qed.

Lemma occurrences_cons (k x : Z * Z) (l : list (Z * Z)) :
  occurrences k (x :: l) = ((if decide (x = k) then 1 else 0) + occurrences k l)%nat.
Proof.
  unfold occurrences. rewrite filter_cons. by case_decide.
Qed.

Lemma occurrences_swap (k : Z * Z) (l : list (Z * Z)) :
  occurrences k (prod_swap <$> l) = occurrences (prod_swap k) l.
Proof.
  induction l as [|x l IH]; [done |].
  rewrite fmap_cons, !occurrences_cons, IH. f_equal.
  destruct x as [a b], k as [c d]. simpl.
  repeat case_decide; naive_solver.
Qed.

Lemma occurrences_pos (k : Z * Z) (l : list (Z * Z)) :
  (0 < occurrences k l)%nat ↔ k ∈ l.
Proof.
  induction l as [|x l IH].
  - split; [unfold occurrences; simpl; lia | by intros ?%elem_of_nil].
  - rewrite occurrences_cons, elem_of_cons.
    destruct (decide (x = k)) as [->|Hne].
    + split; [auto | lia].
    + rewrite <- IH. split; [intros; right; lia | intros [?|?]; [done | lia]].
Qed.

(** In a mirrored list a pair and its reverse occur equally often. *)
Lemma mirrored_balanced (l : list (Z * Z)) (k : Z * Z) :
  mirrored l → occurrences k l = occurrences (prod_swap k) l.
Proof.
  induction 1 as [|pairs fwd _ IH]; [done |].
  rewrite !occurrences_app, !occurrences_swap, IH.
  destruct k; simpl. lia.
Qed.

(** In a mirrored list a pair of a node with itself occurs an even number
    of times. *)
Lemma mirrored_diagonal (l : list (Z * Z)) (a : Z) :
  mirrored l → ∃ n : nat, occurrences (a, a) l = (2 * n)%nat.
Proof.
  induction 1 as [|pairs fwd _ [n IH]]; [by exists 0%nat |].
  exists (n + occurrences (a, a) fwd)%nat.
  rewrite !occurrences_app, !occurrences_swap, IH. simpl. lia.
Qed.

Lemma count_one_lookup (c : gmap (Z * Z) Z) (x k : Z * Z) :
  DeepWalker.count_one c x !! k
  = if decide (x = k) then Some (default 0 (c !! k) + 1) else c !! k.
Proof.
  unfold DeepWalker.count_one. case_decide as Hx.
  - subst. by rewrite lookup_insert_eq.
  - by rewrite lookup_insert_ne.
Qed.

Lemma foldl_count_one (c : gmap (Z * Z) Z) (l : list (Z * Z)) (k : Z * Z) :
  foldl DeepWalker.count_one c l !! k
  = if decide (occurrences k l = 0%nat) then c !! k
    else Some (default 0 (c !! k) + Z.of_nat (occurrences k l)).
Proof.
  revert c. induction l as [|x l IH]; intros c; [done |].
  simpl. rewrite IH, count_one_lookup, occurrences_cons.
  destruct (decide (x = k)) as [->|Hne]; simpl.
  - destruct (decide (occurrences k l = 0%nat)) as [Hz|Hz].
    + rewrite Hz. simpl. f_equal.
    + simpl. f_equal. lia.
  - done.
Qed.

(** The counter of a stream holds, for every pair of the stream, the
    number of its occurrences, and nothing else. *)
Lemma Counter_lookup (l : list (Z * Z)) (k : Z * Z) :
  DeepWalker.Counter l !! k
  = if decide (occurrences k l = 0%nat) then None else Some (Z.of_nat (occurrences k l)).
Proof.
  unfold DeepWalker.Counter. rewrite foldl_count_one, lookup_empty. done.
Qed.

Lemma count_of_Counter (l : list (Z * Z)) (k : Z * Z) :
  count_of (DeepWalker.Counter l) k = Z.of_nat (occurrences k l).
Proof.
  unfold count_of. rewrite Counter_lookup. case_decide as Hz; simpl; lia.
Qed.

Lemma Counter_lookup_Some (l : list (Z * Z)) (k : Z * Z) (v : Z) :
  DeepWalker.Counter l !! k = Some v ↔ k ∈ l ∧ v = Z.of_nat (occurrences k l).
Proof.
  rewrite Counter_lookup, <- occurrences_pos. case_decide as Hz.
  - split; [done | lia].
  - split; [intros [= <-]; split; [lia | done] | by intros [_ ->]].
Qed.

Lemma prune_lookup_Some (t : Z) (c : gmap (Z * Z) Z) (k : Z * Z) (v : Z) :
  DeepWalker.prune t c !! k = Some v ↔ c !! k = Some v ∧ t < v.
Proof. unfold DeepWalker.prune. by rewrite map_lookup_filter_Some. Qed.

Lemma prune_lookup (t : Z) (c : gmap (Z * Z) Z) (k : Z * Z) :
  DeepWalker.prune t c !! k
  = match c !! k with
    | Some v => if decide (t < v) then Some v else None
    | None => None
    end.
Proof.
  apply option_eq. intros v. rewrite prune_lookup_Some.
  destruct (c !! k) as [w|]; [| by split; [intros [? _] |]].
  case_decide as Hw.
  - split; [by intros [? _] | by intros [= <-]].
  - split; [intros [[= <-] ?]; lia | done].
Qed.

(** ** Sparse matrices *)

Lemma max_spec (l : list Z) (m : Z) :
  PyList.max l = Ok m → m ∈ l ∧ ∀ x, x ∈ l → x ≤ m.
Proof.
  destruct l as [|x l]; [done |]. simpl. intros [= <-].
  revert x. induction l as [|y l IH]; intros x; simpl.
  - split; [by left |]. by intros ? ->%list_elem_of_singleton.
  - destruct (IH (Z.max x y)) as [Hin Hle]. split.
    + apply elem_of_cons in Hin as [Heq|Hin]; [| by do 2 right].
      rewrite Heq. destruct (Z.max_spec x y) as [[_ ->]|[_ ->]]; [right; left | left].
    + intros z Hz. apply elem_of_cons in Hz as [->|Hz].
      * pose proof (Hle (Z.max x y) ltac:(by left)). lia.
      * apply elem_of_cons in Hz as [->|Hz].
        -- pose proof (Hle (Z.max x y) ltac:(by left)). lia.
        -- apply Hle. by right.
Qed.

Lemma min_spec (l : list Z) (m : Z) :
  PyList.min l = Ok m → m ∈ l ∧ ∀ x, x ∈ l → m ≤ x.
Proof.
  destruct l as [|x l]; [done |]. simpl. intros [= <-].
  revert x. induction l as [|y l IH]; intros x; simpl.
  - split; [by left |]. by intros ? ->%list_elem_of_singleton.
  - destruct (IH (Z.min x y)) as [Hin Hle]. split.
    + apply elem_of_cons in Hin as [Heq|Hin]; [| by do 2 right].
      rewrite Heq. destruct (Z.min_spec x y) as [[_ ->]|[_ ->]]; [left | right; left].
    + intros z Hz. apply elem_of_cons in Hz as [->|Hz].
      * pose proof (Hle (Z.min x y) ltac:(by left)). lia.
      * apply elem_of_cons in Hz as [->|Hz].
        -- pose proof (Hle (Z.min x y) ltac:(by left)). lia.
        -- apply Hle. by right.
Qed.

Lemma max_nonempty (l : list Z) : l ≠ [] → ∃ m, PyList.max l = Ok m.
Proof. destruct l; [done | eauto]. Qed.

Lemma min_nonempty (l : list Z) : l ≠ [] → ∃ m, PyList.min l = Ok m.
Proof. destruct l; [done | eauto]. Qed.

Section SparseFacts.

Context {V : Type} (vadd : V → V → V).

  (** What the constructor of the triplet form returns, when it returns. *)
Lemma coo_matrix_Ok_inv (data : list V) (row col : list Z) (shape : Z * Z) (A : Sparse.coo V) :
    Sparse.coo_matrix data row col shape = Ok A →
    A = Sparse.Coo shape row col data
    ∧ length row = length data ∧ length col = length data
    ∧ (∀ r, r ∈ row → 0 ≤ r < shape.1)
    ∧ (∀ c, c ∈ col → 0 ≤ c < shape.2).
Proof.
    unfold Sparse.coo_matrix.
    destruct ((shape.1 <? 0) || (shape.2 <? 0)); [done |].
    destruct (Nat.eqb_spec (length row) (length data)) as [Hr|]; [| done].
    destruct (Nat.eqb_spec (length col) (length data)) as [Hc|]; [| done].
    simpl. destruct (Nat.ltb_spec 0 (length data)) as [Hpos|Hzero].
    - intros (rmax & Hrmax & H)%bind_Ok. apply bind_Ok in H as (cmax & Hcmax & H).
      apply bind_Ok in H as (rmin & Hrmin & H). apply bind_Ok in H as (cmin & Hcmin & H).
      destruct (Z.leb_spec shape.1 rmax); [done |].
      destruct (Z.leb_spec shape.2 cmax); [done |].
      destruct (Z.ltb_spec rmin 0); [done |].
      destruct (Z.ltb_spec cmin 0); [done |].
      injection H as <-.
      apply max_spec in Hrmax as [_ Hrmax]. apply max_spec in Hcmax as [_ Hcmax].
      apply min_spec in Hrmin as [_ Hrmin]. apply min_spec in Hcmin as [_ Hcmin].
      split; [done |]. split; [done |]. split; [done |]. split.
      + intros r Hin. specialize (Hrmax _ Hin). specialize (Hrmin _ Hin). lia.
      + intros c Hin. specialize (Hcmax _ Hin). specialize (Hcmin _ Hin). lia.
    - intros [= <-].
      assert (row = []) as -> by (apply length_zero_iff_nil; lia).
      assert (col = []) as -> by (apply length_zero_iff_nil; lia).
      split; [done |]. split; [done |]. split; [done |].
      split; by intros ? ?%elem_of_nil.
Qed.

  (** The constructor returns whenever the arrays have one length and the
      indices lie inside the shape. *)
Lemma coo_matrix_Ok (data : list V) (row col : list Z) (shape : Z * Z) :
    0 ≤ shape.1 → 0 ≤ shape.2 →
    length row = length data → length col = length data →
    (∀ r, r ∈ row → 0 ≤ r < shape.1) →
    (∀ c, c ∈ col → 0 ≤ c < shape.2) →
    Sparse.coo_matrix data row col shape = Ok (Sparse.Coo shape row col data).
Proof.
    intros Hs1 Hs2 Hr Hc Hrow Hcol. unfold Sparse.coo_matrix.
    destruct (Z.ltb_spec shape.1 0); [lia |].
    destruct (Z.ltb_spec shape.2 0); [lia |]. cbn [orb].
    rewrite Hr, Hc, Nat.eqb_refl. simpl.
    destruct (Nat.ltb_spec 0 (length data)) as [Hpos|Hzero]; [| done].
    destruct (max_nonempty row) as [rmax Hrmax]; [by intros ->; simpl in *; lia |].
    destruct (max_nonempty col) as [cmax Hcmax]; [by intros ->; simpl in *; lia |].
    destruct (min_nonempty row) as [rmin Hrmin]; [by intros ->; simpl in *; lia |].
    destruct (min_nonempty col) as [cmin Hcmin]; [by intros ->; simpl in *; lia |].
    rewrite Hrmax, Hcmax, Hrmin, Hcmin. simpl.
    apply max_spec in Hrmax as [Hrmax _]. apply max_spec in Hcmax as [Hcmax _].
    apply min_spec in Hrmin as [Hrmin _]. apply min_spec in Hcmin as [Hcmin _].
    apply Hrow in Hrmax, Hrmin. apply Hcol in Hcmax, Hcmin.
    destruct (Z.leb_spec shape.1 rmax); [lia |].
    destruct (Z.leb_spec shape.2 cmax); [lia |].
    destruct (Z.ltb_spec rmin 0); [lia |].
    destruct (Z.ltb_spec cmin 0); [lia |].
    done.
Qed.

  (** A constructed triplet form has a shape that is not negative. *)
Lemma coo_matrix_Ok_shape (data : list V) (row col : list Z) (shape : Z * Z) (A : Sparse.coo V) :
    Sparse.coo_matrix data row col shape = Ok A → 0 ≤ shape.1 ∧ 0 ≤ shape.2.
Proof.
    unfold Sparse.coo_matrix.
    destruct (Z.ltb_spec shape.1 0); [done |].
    destruct (Z.ltb_spec shape.2 0); [done |]. lia.
Qed.

Lemma values_at_cons (k k' : Z * Z) (v : V) (l : list ((Z * Z) * V)) :
    values_at k ((k', v) :: l)
    = if decide (k' = k) then v :: values_at k l else values_at k l.
Proof.
    unfold values_at. rewrite filter_cons. simpl. by case_decide.
Qed.

  (** The compressed form holds, at each coordinate, the sum of the values
      given for it, in the order of the triplets. *)
Lemma foldl_accumulate (m : gmap (Z * Z) V) (l : list ((Z * Z) * V)) (k : Z * Z) :
    foldl (Sparse.accumulate vadd) m l !! k
    = match m !! k with
      | Some x => Some (foldl vadd x (values_at k l))
      | None => combine vadd (values_at k l)
      end.
Proof.
    revert m. induction l as [|[k' v] l IH]; intros m.
    - simpl. by destruct (m !! k).
    - simpl. rewrite IH, values_at_cons.
      destruct (decide (k' = k)) as [->|Hne].
      + destruct (m !! k) as [x|] eqn:Hk; by rewrite lookup_insert_eq.
      + destruct (m !! k') as [x|] eqn:Hk'; by rewrite lookup_insert_ne.
Qed.

Lemma csr_matrix_stored (A : Sparse.coo V) (i j : Z) :
    Sparse.stored (Sparse.csr_matrix vadd A) i j
    = combine vadd (values_at (i, j)
        (zip (zip (Sparse.coo_row A) (Sparse.coo_col A)) (Sparse.coo_data A))).
Proof.
    unfold Sparse.stored, Sparse.csr_matrix. simpl.
    by rewrite foldl_accumulate, lookup_empty.
Qed.

  (** The entries listed by a dictionary give each key one value. *)
Lemma values_at_map_to_list {W : Type} (f : W → V) (m : gmap (Z * Z) W) (k : Z * Z) :
    values_at k ((λ kv, (kv.1, f kv.2)) <$> map_to_list m)
    = match m !! k with Some w => [f w] | None => [] end.
Proof.
    induction m as [|k' w m Hfresh Hfirst IH] using map_first_key_ind.
    - by rewrite map_to_list_empty, lookup_empty.
    - rewrite map_to_list_insert_first_key by done.
      rewrite fmap_cons, values_at_cons, IH. simpl.
      destruct (decide (k' = k)) as [->|Hne].
      + by rewrite lookup_insert_eq, Hfresh.
      + by rewrite lookup_insert_ne.
Qed.

End SparseFacts.

(** ** The pairs of a walk are made of its nodes *)

Lemma slice_subseteq {A : Type} (l : list A) (start stop : Z) :
  PyList.slice l start stop ⊆ l.
Proof.
  unfold PyList.slice. etrans; [apply subseteq_take | apply subseteq_drop].
Qed.

Lemma step_elements (walk : list Z) (omega : Z) (pairs pairs' : list (Z * Z)) :
  (∀ p, p ∈ pairs → p.1 ∈ walk ∧ p.2 ∈ walk) →
  Processor.step walk omega pairs = Ok pairs' →
  ∀ p, p ∈ pairs' → p.1 ∈ walk ∧ p.2 ∈ walk.
Proof.
  intros Hold. unfold Processor.step, PyList.enumerate.
  rewrite (comprehension_getitem (λ s n, (s, n))).
  rewrite (comprehension_getitem (λ s n, (n, s))).
  case_decide; simpl; [| done].
  intros [= <-] p. rewrite zip_with_swapped, !elem_of_app, list_elem_of_fmap.
  assert (∀ q, q ∈ zip_with (λ s n : Z, (s, n))
                 (PyList.slice walk 0 (Z.of_nat (length walk) - omega))
                 (drop 0 (PyList.slice_from walk omega)) →
               q.1 ∈ walk ∧ q.2 ∈ walk) as Hzip.
  { intros [a b] Hq. simpl. split.
    - apply elem_of_zip_l in Hq. by eapply slice_subseteq.
    - apply elem_of_zip_r in Hq. rewrite drop_0 in Hq.
      by eapply slice_subseteq. }
  intros [[Hp|Hp]|(q & -> & Hq)].
  - by apply Hold.
  - by apply Hzip.
  - destruct q as [a b]. apply Hzip in Hq as [? ?]. by split.
Qed.

Lemma for_each_step_elements (walk : list Z) (offsets : list Z) (pairs pairs' : list (Z * Z)) :
  (∀ p, p ∈ pairs → p.1 ∈ walk ∧ p.2 ∈ walk) →
  PyList.for_each (Processor.step walk) offsets pairs = Ok pairs' →
  ∀ p, p ∈ pairs' → p.1 ∈ walk ∧ p.2 ∈ walk.
Proof.
  revert pairs. induction offsets as [|omega offsets IH]; intros pairs Hold; simpl.
  - by intros [= <-].
  - intros (mid & Hstep & Hrest)%bind_Ok.
    eapply IH; [| done]. by eapply step_elements.
Qed.

Lemma processor_elements (window_size : Z) (walk : list Z) (pairs : list (Z * Z)) :
  Processor.processor window_size walk = Ok pairs →
  ∀ p, p ∈ pairs → p.1 ∈ walk ∧ p.2 ∈ walk.
Proof.
  apply for_each_step_elements. by intros ? ?%elem_of_nil.
Qed.

(** ** The aggregation loop of [do_processing] *)

Section ProcessingFacts.

Variable args : DeepWalker.Args.

Lemma pair_lists_acc (walks : list (list Z)) (acc lists : list (list (Z * Z))) :
    PyList.for_each
      (λ walk container,
         pairs ← DeepWalker.processor args walk; Ok (container ++ [pairs]))
      walks acc = Ok lists ↔
    ∃ new, lists = acc ++ new
           ∧ Forall2 (λ walk pairs, DeepWalker.processor args walk = Ok pairs) walks new.
Proof.
    revert acc. induction walks as [|walk walks IH]; intros acc; simpl.
    - split.
      + intros [= <-]. exists []. by rewrite app_nil_r.
      + intros (new & -> & ->%Forall2_nil_inv_l). by rewrite app_nil_r.
    - rewrite bind_Ok. split.
      + intros (mid & (pairs & Hp & [= <-])%bind_Ok & Hrest).
        apply IH in Hrest as (new & -> & Hnew).
        exists (pairs :: new). rewrite <- (assoc_L (++)). split; [done |].
        by constructor.
      + intros (new & -> & Hall).
        apply Forall2_cons_inv_l in Hall as (pairs & new' & Hp & Hall & ->).
        exists (acc ++ [pairs]). split; [by rewrite Hp |].
        apply IH. exists new'. by rewrite <- (assoc_L (++)).
Qed.

Lemma pair_lists_Ok (walks : list (list Z)) (lists : list (list (Z * Z))) :
    DeepWalker.pair_lists args walks = Ok lists ↔
    Forall2 (λ walk pairs, DeepWalker.processor args walk = Ok pairs) walks lists.
Proof.
    unfold DeepWalker.pair_lists. rewrite pair_lists_acc. simpl.
    split; [by intros (new & -> & ?) | intros ?; by exists lists].
Qed.

Lemma pair_lists_total (walks : list (list Z)) :
    Forall (λ walk, ∃ pairs, DeepWalker.processor args walk = Ok pairs) walks →
    ∃ lists, DeepWalker.pair_lists args walks = Ok lists.
Proof.
    intros Hall.
    assert (∃ lists, Forall2 (λ walk pairs, DeepWalker.processor args walk = Ok pairs)
                       walks lists) as [lists Hlists].
    { induction Hall as [|walk walks [pairs Hp] _ [lists IH]].
      - by exists [].
      - exists (pairs :: lists). by constructor. }
    exists lists. by apply pair_lists_Ok.
Qed.

  (** The stream of all pairs of a corpus is mirrored. *)
Lemma pair_lists_mirrored (walks : list (list Z)) (lists : list (list (Z * Z))) :
    DeepWalker.pair_lists args walks = Ok lists → mirrored (concat lists).
Proof.
    intros Hall%pair_lists_Ok. apply mirrored_concat.
    induction Hall as [|walk pairs walks lists Hp _ IH]; constructor; [| done].
    by eapply processor_mirrored.
Qed.

  (** Every pair of the stream is made of nodes of some walk. *)
Lemma pair_lists_elements (walks : list (list Z)) (lists : list (list (Z * Z))) (p : Z * Z) :
    DeepWalker.pair_lists args walks = Ok lists →
    p ∈ concat lists →
    ∃ walk, walk ∈ walks ∧ p.1 ∈ walk ∧ p.2 ∈ walk.
Proof.
    intros Hall%pair_lists_Ok.
    induction Hall as [|walk pairs walks lists Hp _ IH]; simpl.
    - by intros ?%elem_of_nil.
    - intros [Hin|Hin]%elem_of_app.
      + exists walk. split; [by left |]. by eapply processor_elements.
      + destruct (IH Hin) as (w & ? & ?). exists w. split; [by right | done].
Qed.

Lemma zip_items {W V : Type} (f : W → V) (items : list ((Z * Z) * W)) :
    zip (zip ((λ kv, kv.1.1) <$> items) ((λ kv, kv.1.2) <$> items))
        (f <$> ((λ kv, kv.2) <$> items))
    = (λ kv, (kv.1, f kv.2)) <$> items.
Proof.
    induction items as [|[[i j] w] items IH]; [done |].
    rewrite !fmap_cons. cbn [zip_with fst snd]. by rewrite IH.
Qed.

  (** What [do_processing] returns, when it returns: the shape it was
      given and, at every coordinate, the float of the pruned count. *)
Lemma do_processing_Ok_inv (shape : Z * Z) (walks : list (list Z)) (A : Sparse.csr Z) :
    DeepWalker.do_processing args shape walks = Ok A →
    ∃ lists,
      DeepWalker.pair_lists args walks = Ok lists
      ∧ Sparse.csr_shape A = shape
      ∧ (∀ i j, Sparse.stored A i j
                = Float32.of_int <$> (DeepWalker.container_of args lists !! (i, j)))
      ∧ (∀ i j, is_Some (DeepWalker.container_of args lists !! (i, j)) →
                0 ≤ i < shape.1 ∧ 0 ≤ j < shape.2).
Proof.
    unfold DeepWalker.do_processing.
    intros (lists & Hlists & (C & HC & [= <-])%bind_Ok)%bind_Ok.
    exists lists. split; [done |].
    apply coo_matrix_Ok_inv in HC as (-> & _ & _ & Hrow & Hcol).
    split; [done |]. split.
    - intros i j. rewrite csr_matrix_stored. simpl.
      rewrite zip_items, values_at_map_to_list.
      by destruct (DeepWalker.container_of args lists !! (i, j)).
    - intros i j [v Hv]. apply elem_of_map_to_list in Hv. split.
      + apply Hrow. apply list_elem_of_fmap. by exists ((i, j), v).
      + apply Hcol. apply list_elem_of_fmap. by exists ((i, j), v).
Qed.

  (** [do_processing] returns whenever the pair extractor returns on
      every walk and every surviving pair lies inside the shape. *)
Lemma do_processing_total (shape : Z * Z) (walks : list (list Z)) (lists : list (list (Z * Z))) :
    DeepWalker.pair_lists args walks = Ok lists →
    0 ≤ shape.1 ∧ 0 ≤ shape.2 →
    (∀ i j, is_Some (DeepWalker.container_of args lists !! (i, j)) →
            0 ≤ i < shape.1 ∧ 0 ≤ j < shape.2) →
    ∃ A, DeepWalker.do_processing args shape walks = Ok A.
Proof.
    intros Hlists [Hs1 Hs2] Hin. unfold DeepWalker.do_processing. rewrite Hlists. simpl.
    rewrite coo_matrix_Ok; [by eexists | done | done | by rewrite !length_fmap.. | |].
    - intros r ([[i j] v] & -> & Hv%elem_of_map_to_list)%list_elem_of_fmap.
      by apply (Hin i j).
    - intros c ([[i j] v] & -> & Hv%elem_of_map_to_list)%list_elem_of_fmap.
      by apply (Hin i j).
Qed.

End ProcessingFacts.

(** ** The graph store *)

Lemma lookup_None_nodes (G : Graph.t) (n : Z) :
  Graph.lookup G n = None ↔ n ∉ Graph.nodes G.
Proof.
  unfold Graph.nodes. induction G as [|[m nbrs] G IH]; simpl.
  - split; [intros _ ?%elem_of_nil; done | done].
  - rewrite not_elem_of_cons. case_decide as Hm.
    + split; [done | intros [? _]; congruence].
    + rewrite IH. split; [by intros ?; split | by intros [_ ?]].
Qed.

Lemma lookup_is_Some_nodes (G : Graph.t) (n : Z) :
  is_Some (Graph.lookup G n) ↔ n ∈ Graph.nodes G.
Proof.
  rewrite <- not_eq_None_Some, lookup_None_nodes.
  split; [apply dec_stable | auto].
Qed.

Lemma lookup_app (G1 G2 : Graph.t) (n : Z) :
  Graph.lookup (G1 ++ G2) n
  = match Graph.lookup G1 n with
    | Some nbrs => Some nbrs
    | None => Graph.lookup G2 n
    end.
Proof.
  induction G1 as [|[m nbrs] G1 IH]; simpl; [done |]. by case_decide.
Qed.

Lemma lookup_add_node (G : Graph.t) (u n : Z) :
  Graph.lookup (Graph.add_node G u) n
  = match Graph.lookup G n with
    | Some nbrs => Some nbrs
    | None => if decide (u = n) then Some [] else None
    end.
Proof.
  unfold Graph.add_node. destruct (Graph.lookup G u) as [nbrs|] eqn:Hu.
  - destruct (Graph.lookup G n) eqn:Hn; [done |].
    case_decide; [congruence | done].
  - rewrite lookup_app. simpl. by destruct (Graph.lookup G n).
Qed.

Lemma nodes_add_node (G : Graph.t) (u : Z) :
  Graph.nodes (Graph.add_node G u)
  = if decide (u ∈ Graph.nodes G) then Graph.nodes G else Graph.nodes G ++ [u].
Proof.
  unfold Graph.add_node. case_decide as Hu.
  - apply lookup_is_Some_nodes in Hu as [nbrs ->]. done.
  - apply lookup_None_nodes in Hu as ->. unfold Graph.nodes. by rewrite fmap_app.
Qed.

Lemma lookup_set_adj (G : Graph.t) (u v n : Z) :
  Graph.lookup (Graph.set_adj G u v) n
  = if decide (u = n) then (λ nbrs, Graph.set_key nbrs v) <$> Graph.lookup G n
    else Graph.lookup G n.
Proof.
  induction G as [|[m nbrs] G IH]; simpl.
  - by case_decide.
  - destruct (decide (m = u)) as [->|Hmu]; simpl.
    + by destruct (decide (u = n)).
    + rewrite IH. destruct (decide (m = n)) as [->|Hmn]; [| done].
      by rewrite decide_False by congruence.
Qed.

Lemma nodes_set_adj (G : Graph.t) (u v : Z) :
  Graph.nodes (Graph.set_adj G u v) = Graph.nodes G.
Proof.
  unfold Graph.nodes. induction G as [|[m nbrs] G IH]; simpl; [done |].
  case_decide; [done |]. rewrite !fmap_cons. by rewrite IH.
Qed.

Lemma elem_of_set_key (nbrs : list Z) (v x : Z) :
  x ∈ Graph.set_key nbrs v ↔ x ∈ nbrs ∨ x = v.
Proof.
  unfold Graph.set_key. case_decide as Hv.
  - split; [auto | intros [?| ->]; done].
  - rewrite elem_of_app, list_elem_of_singleton. done.
Qed.

Lemma nodes_add_edge (G : Graph.t) (a b n : Z) :
  n ∈ Graph.nodes (Graph.add_edge G (a, b)) ↔ n ∈ Graph.nodes G ∨ n = a ∨ n = b.
Proof.
  unfold Graph.add_edge. rewrite !nodes_set_adj, !nodes_add_node.
  repeat case_decide; rewrite ?elem_of_app, ?list_elem_of_singleton in *;
    intuition (subst; auto).
Qed.

Lemma NoDup_nodes_add_node (G : Graph.t) (u : Z) :
  NoDup (Graph.nodes G) → NoDup (Graph.nodes (Graph.add_node G u)).
Proof.
  intros Hnd. rewrite nodes_add_node. case_decide as Hu; [done |].
  apply NoDup_app. split; [done |]. split; [| apply NoDup_singleton].
  intros x Hx ->%list_elem_of_singleton. done.
Qed.

Lemma NoDup_nodes_add_edge (G : Graph.t) (e : Z * Z) :
  NoDup (Graph.nodes G) → NoDup (Graph.nodes (Graph.add_edge G e)).
Proof.
  intros Hnd. destruct e as [a b]. unfold Graph.add_edge.
  rewrite !nodes_set_adj. by do 2 apply NoDup_nodes_add_node.
Qed.

(** Adding an edge adds the two orientations of the edge to the adjacency
    relation, and nothing else. *)
Lemma adjacent_add_edge (G : Graph.t) (a b u v : Z) :
  adjacent (Graph.add_edge G (a, b)) u v
  ↔ adjacent G u v ∨ (u = a ∧ v = b) ∨ (u = b ∧ v = a).
Proof.
  unfold adjacent, Graph.add_edge. cbv zeta.
  rewrite !lookup_set_adj, !lookup_add_node.
  destruct (Graph.lookup G u) as [nbrs|] eqn:Hu; simpl.
  - destruct (decide (b = u)) as [->|Hb], (decide (a = u)) as [->|Ha]; simpl.
    + split.
      * intros (? & [= <-] & Hin). rewrite !elem_of_set_key in Hin.
        destruct Hin as [[?| ->]| ->]; eauto.
      * intros [(? & [= <-] & ?)|[[_ ->]|[_ ->]]]; eexists; (split; [done |]);
          rewrite !elem_of_set_key; auto.
    + split.
      * intros (? & [= <-] & Hin). rewrite !elem_of_set_key in Hin.
        destruct Hin as [?| ->]; eauto.
      * intros [(? & [= <-] & ?)|[[? ->]|[_ ->]]]; try done; eexists;
          (split; [done |]); rewrite !elem_of_set_key; auto.
    + split.
      * intros (? & [= <-] & Hin). rewrite !elem_of_set_key in Hin.
        destruct Hin as [?| ->]; eauto.
      * intros [(? & [= <-] & ?)|[[_ ->]|[? ->]]]; try done; eexists;
          (split; [done |]); rewrite !elem_of_set_key; auto.
    + split.
      * intros (? & [= <-] & Hin). eauto.
      * intros [(? & [= <-] & ?)|[[? _]|[? _]]]; try done; eauto.
  - destruct (decide (b = u)) as [->|Hb], (decide (a = u)) as [->|Ha]; simpl.
    + split.
      * intros (? & [= <-] & Hin). rewrite !elem_of_set_key in Hin.
        destruct Hin as [[?%elem_of_nil| ->]| ->]; [done | auto..].
      * intros [(? & [=] & ?)|[[_ ->]|[_ ->]]]; eexists; (split; [done |]);
          rewrite !elem_of_set_key; auto.
    + split.
      * intros (? & [= <-] & Hin). rewrite !elem_of_set_key in Hin.
        destruct Hin as [?%elem_of_nil| ->]; [done | auto].
      * intros [(? & [=] & ?)|[[? ->]|[_ ->]]]; try done; eexists;
          (split; [done |]); rewrite !elem_of_set_key; auto.
    + split.
      * intros (? & [= <-] & Hin). rewrite !elem_of_set_key in Hin.
        destruct Hin as [?%elem_of_nil| ->]; [done | auto].
      * intros [(? & [=] & ?)|[[_ ->]|[? ->]]]; try done; eexists;
          (split; [done |]); rewrite !elem_of_set_key; auto.
    + split.
      * by intros (? & [=] & _).
      * intros [(? & [=] & ?)|[[? _]|[? _]]]; done.
Qed.

Lemma elem_of_endpoints (edgelist : list (Z * Z)) (n : Z) :
  n ∈ endpoints edgelist ↔ ∃ m, edge_of edgelist n m.
Proof.
  unfold endpoints, edge_of. rewrite list_elem_of_bind. split.
  - intros ([a b] & Hn & He). simpl in Hn.
    apply elem_of_cons in Hn as [->|Hn]; [by exists b; left |].
    apply list_elem_of_singleton in Hn as ->. exists a; by right.
  - intros (m & [He|He]); eexists; (split; [| exact He]); simpl.
    + by left.
    + right. by left.
Qed.

Lemma endpoints_cons (e : Z * Z) (edgelist : list (Z * Z)) (n : Z) :
  n ∈ endpoints (e :: edgelist) ↔ n = e.1 ∨ n = e.2 ∨ n ∈ endpoints edgelist.
Proof.
  unfold endpoints. simpl. rewrite !elem_of_cons. tauto.
Qed.

Lemma edge_of_cons (a b : Z) (edgelist : list (Z * Z)) (u v : Z) :
  edge_of ((a, b) :: edgelist) u v
  ↔ (u = a ∧ v = b) ∨ (u = b ∧ v = a) ∨ edge_of edgelist u v.
Proof.
  unfold edge_of. rewrite !elem_of_cons.
  split.
  - intros [[[= -> ->]|?]|[[= -> ->]|?]]; auto.
  - intros [[-> ->]|[[-> ->]|[?|?]]]; auto.
Qed.

Lemma adjacent_foldl (G : Graph.t) (edgelist : list (Z * Z)) (u v : Z) :
  adjacent (foldl Graph.add_edge G edgelist) u v
  ↔ adjacent G u v ∨ edge_of edgelist u v.
Proof.
  revert G. induction edgelist as [|[a b] edgelist IH]; intros G; cbn [foldl].
  - unfold edge_of. split; [auto | intros [?|[?%elem_of_nil|?%elem_of_nil]]; done].
  - rewrite IH, adjacent_add_edge, edge_of_cons. tauto.
Qed.

Lemma nodes_foldl (G : Graph.t) (edgelist : list (Z * Z)) (n : Z) :
  n ∈ Graph.nodes (foldl Graph.add_edge G edgelist)
  ↔ n ∈ Graph.nodes G ∨ n ∈ endpoints edgelist.
Proof.
  revert G. induction edgelist as [|[a b] edgelist IH]; intros G; cbn [foldl].
  - split; [auto | intros [?|?%elem_of_nil]; done].
  - rewrite IH, nodes_add_edge, endpoints_cons. simpl. tauto.
Qed.

Lemma NoDup_nodes_foldl (G : Graph.t) (edgelist : list (Z * Z)) :
  NoDup (Graph.nodes G) → NoDup (Graph.nodes (foldl Graph.add_edge G edgelist)).
Proof.
  revert G. induction edgelist as [|e edgelist IH]; intros G Hnd; simpl; [done |].
  by apply IH, NoDup_nodes_add_edge.
Qed.

(** The neighbours of a node are the nodes the edge list joins it to. *)
Lemma adjacent_from_edgelist (edgelist : list (Z * Z)) (u v : Z) :
  adjacent (Graph.from_edgelist edgelist) u v ↔ edge_of edgelist u v.
Proof.
  unfold Graph.from_edgelist. rewrite adjacent_foldl.
  split; [intros [(? & [=] & _)|?]; done | auto].
Qed.

(** The nodes of the graph are the nodes the edge list mentions. *)
Lemma nodes_from_edgelist (edgelist : list (Z * Z)) (n : Z) :
  n ∈ Graph.nodes (Graph.from_edgelist edgelist) ↔ n ∈ endpoints edgelist.
Proof.
  unfold Graph.from_edgelist. rewrite nodes_foldl.
  split; [intros [?%elem_of_nil|?]; done | auto].
Qed.

Lemma NoDup_nodes_from_edgelist (edgelist : list (Z * Z)) :
  NoDup (Graph.nodes (Graph.from_edgelist edgelist)).
Proof. apply NoDup_nodes_foldl. constructor. Qed.

(** [len(graph.nodes())] is the number of distinct nodes of the edge list. *)
Lemma length_nodes_from_edgelist (edgelist : list (Z * Z)) :
  length (Graph.nodes (Graph.from_edgelist edgelist)) = node_count edgelist.
Proof.
  unfold node_count. apply Permutation_length, NoDup_Permutation.
  - apply NoDup_nodes_from_edgelist.
  - apply NoDup_remove_dups.
  - intros n. by rewrite nodes_from_edgelist, elem_of_remove_dups.
Qed.

(** Every neighbour is a node of the graph. *)
Lemma adjacent_node (edgelist : list (Z * Z)) (u v : Z) :
  adjacent (Graph.from_edgelist edgelist) u v →
  v ∈ Graph.nodes (Graph.from_edgelist edgelist).
Proof.
  rewrite adjacent_from_edgelist, nodes_from_edgelist, elem_of_endpoints.
  intros [?|?]; exists u; unfold edge_of; auto.
Qed.

(** No node of the graph is isolated: node identity comes from the edges. *)
Lemma node_has_neighbour (edgelist : list (Z * Z)) (n : Z) :
  n ∈ Graph.nodes (Graph.from_edgelist edgelist) →
  ∃ nbrs, Graph.neighbors (Graph.from_edgelist edgelist) n = Ok nbrs ∧ nbrs ≠ [].
Proof.
  rewrite nodes_from_edgelist, elem_of_endpoints.
  intros (m & (nbrs & Hl & Hin)%adjacent_from_edgelist).
  exists nbrs. unfold Graph.neighbors. rewrite Hl. split; [done |].
  by intros ->; apply elem_of_nil in Hin.
Qed.

Lemma neighbors_Ok (G : Graph.t) (n : Z) (nbrs : list Z) :
  Graph.neighbors G n = Ok nbrs ↔ Graph.lookup G n = Some nbrs.
Proof.
  unfold Graph.neighbors. destruct (Graph.lookup G n); split; congruence.
Qed.

(** ** The walk sampler *)

Lemma consecutive_snoc (R : Z → Z → Prop) (l : list Z) (y x : Z) :
  last l = Some y → consecutive R l → R y x → consecutive R (l ++ [x]).
Proof.
  induction l as [|a [|b l] IH]; [done | |].
  - simpl. intros [= ->] _ ?. done.
  - intros Hlast [Hab Hrest] HR. rewrite last_cons_cons in Hlast.
    change ((a :: b :: l) ++ [x]) with (a :: (b :: l) ++ [x]).
    simpl. split; [done |]. by apply IH.
Qed.

Lemma for_each_invariant {X S : Type} (body : X → S → result S) (I : S → Prop)
    (xs : list X) (s : S) :
  I s →
  (∀ x s, x ∈ xs → I s → ∃ s', body x s = Ok s' ∧ I s') →
  ∃ s', PyList.for_each body xs s = Ok s' ∧ I s'.
Proof.
  revert s. induction xs as [|x xs IH]; intros s Hs Hbody; simpl.
  - by exists s.
  - destruct (Hbody x s) as (s' & -> & Hs'); [by left | done |]. simpl.
    apply IH; [done |]. intros y t Hy. apply Hbody. by right.
Qed.

Lemma sample1_Ok {A : Type} (rng : nat → nat) (population : list A) (s : nat) :
  population ≠ [] →
  ∃ x, Random.sample1 rng population s = Ok ([x], S s) ∧ x ∈ population.
Proof.
  intros Hne. unfold Random.sample1.
  destruct (lookup_lt_is_Some_2 population (rng s mod length population)%nat) as [x Hx].
  { apply Nat.mod_upper_bound. by destruct population. }
  exists x. rewrite Hx. split; [done |]. by eapply list_elem_of_lookup_2.
Qed.

Section WalkFacts.

Variable args : DeepWalker.Args.
Variable rng : nat → nat.
Variable G : Graph.t.
Hypothesis G_closed : closed G.

(** The loop of [do_a_walk] returns within its budget; it extends the
    walk along edges, never beyond [walk_length] nodes, and up to exactly
    that many when the graph has no dead end. *)
Lemma walk_loop_spec (fuel : nat) (nodes : list Z) (cur : Z) (s : nat) :
  last nodes = Some cur →
  Forall (λ x, x ∈ Graph.nodes G) nodes →
  consecutive (adjacent G) nodes →
  DeepWalker.walk_length args - Z.of_nat (length nodes) ≤ Z.of_nat fuel →
  ∃ ext s',
    DeepWalker.walk_loop args rng G fuel nodes s = Ok (nodes ++ ext, s')
    ∧ Z.of_nat (length (nodes ++ ext))
        ≤ Z.max (Z.of_nat (length nodes)) (DeepWalker.walk_length args)
    ∧ consecutive (adjacent G) (nodes ++ ext)
    ∧ Forall (λ x, x ∈ Graph.nodes G) (nodes ++ ext)
    ∧ (no_dead_end G →
       Z.of_nat (length (nodes ++ ext))
         = Z.max (Z.of_nat (length nodes)) (DeepWalker.walk_length args)).
Proof.
  revert nodes cur s.
  induction fuel as [|fuel IH]; intros nodes cur s Hlast Hnodes Hcons Hfuel.
  - exists [], s. simpl.
    destruct (Z.ltb_spec (Z.of_nat (length nodes)) (DeepWalker.walk_length args));
      [lia |].
    rewrite app_nil_r. repeat split; try done; lia.
  - cbn [DeepWalker.walk_loop].
    destruct (Z.ltb_spec (Z.of_nat (length nodes)) (DeepWalker.walk_length args))
      as [Hlt|Hge]; cycle 1.
    { exists [], s. rewrite app_nil_r. repeat split; try done; lia. }
    unfold PyList.last_item. rewrite Hlast. simpl.
    assert (cur ∈ Graph.nodes G) as Hcur.
    { rewrite Forall_forall in Hnodes. apply Hnodes.
      by apply last_Some_elem_of. }
    apply lookup_is_Some_nodes in Hcur as [nebs Hnebs].
    unfold Graph.neighbors at 1. rewrite Hnebs. simpl.
    destruct (Nat.ltb_spec 0 (length nebs)) as [Hpos|Hzero].
    + destruct (sample1_Ok rng nebs s) as (x & -> & Hx).
      { intros ->. simpl in Hpos. lia. }
      simpl.
      assert (adjacent G cur x) as Hadj by (by exists nebs).
      destruct (IH (nodes ++ [x]) x (S s)) as (ext & s' & Hrun & Hlen & Hc & Hall & Hfull).
      * apply last_snoc.
      * apply Forall_app. split; [done |]. apply Forall_singleton.
        by eapply G_closed.
      * by eapply consecutive_snoc.
      * rewrite length_app. simpl. lia.
      * exists (x :: ext), s'. rewrite (cons_middle x nodes ext), (assoc_L (++)).
        rewrite length_app in Hlen, Hfull. simpl in Hlen, Hfull.
        split; [done |]. split; [rewrite !length_app in *; simpl in *; lia |].
        split; [done |]. split; [done |].
        intros Hnd. specialize (Hfull Hnd).
        rewrite !length_app in *. simpl in *. lia.
    + exists [], s. rewrite app_nil_r.
      split; [done |]. split; [lia |]. split; [done |]. split; [done |].
      intros Hnd. destruct (Hnd cur) as (nbrs & Hn & Hne).
      { apply lookup_is_Some_nodes. by eexists. }
      apply neighbors_Ok in Hn. rewrite Hnebs in Hn. injection Hn as ->.
      destruct nbrs; [done | simpl in Hzero; lia].
Qed.

(** [do_a_walk] returns a walk of the specification from every node of
    the graph. *)
Lemma do_a_walk_spec (node : Z) (s : nat) :
  node ∈ Graph.nodes G →
  ∃ walk s',
    DeepWalker.do_a_walk args rng G node s = Ok (walk, s')
    ∧ walk_from G (DeepWalker.walk_length args) node walk
    ∧ (no_dead_end G →
       Z.of_nat (length walk) = Z.max 1 (DeepWalker.walk_length args)).
Proof.
  intros Hnode. unfold DeepWalker.do_a_walk.
  destruct (walk_loop_spec (Z.to_nat (DeepWalker.walk_length args)) [node] node s)
    as (ext & s' & Hrun & Hlen & Hc & Hall & Hfull).
  - done.
  - by apply Forall_singleton.
  - done.
  - simpl. lia.
  - exists ([node] ++ ext), s'. split; [done |]. split; [| done].
    split; [done |]. split; [| done].
    simpl in *. lia.
Qed.

End WalkFacts.

(** ** The corpus builder *)

Section CorpusFacts.

Variable args : DeepWalker.Args.
Variable rng : nat → nat.
Variable G : Graph.t.
Hypothesis G_closed : closed G.

Lemma do_walks_spec (s : nat) :
  ∃ walks s',
    DeepWalker.do_walks args rng G s = Ok (walks, s')
    ∧ Forall (corpus_walk args G) walks.
Proof.
  unfold DeepWalker.do_walks.
  destruct (for_each_invariant
    (λ (_ : Z) st,
       PyList.for_each
         (λ node '(walks, s),
            '(walk, s') ← DeepWalker.do_a_walk args rng G node s;
            Ok (walks ++ [walk], s'))
         (Graph.nodes G) st)
    (λ st, Forall (corpus_walk args G) st.1)
    (PyList.range 0 (DeepWalker.number_of_walks args)) ([], s))
    as ([walks s'] & Hrun & Hinv).
  - constructor.
  - intros _ st _ Hst.
    apply for_each_invariant; [done |].
    intros node [walks0 s0] Hnode Hwalks0. simpl in Hwalks0.
    destruct (do_a_walk_spec args rng G G_closed node s0 Hnode)
      as (walk & s1 & -> & Hwalk & Hfull).
    simpl. eexists. split; [done |]. simpl.
    apply Forall_app. split; [done |]. apply Forall_singleton.
    split; [by exists node | done].
  - by exists walks, s'.
Qed.

End CorpusFacts.

(** ** The constructor of the walker *)

Lemma closed_from_edgelist (edgelist : list (Z * Z)) :
  closed (Graph.from_edgelist edgelist).
Proof. intros u v. apply adjacent_node. Qed.

(** A graph stays closed when a node is added to it. *)
Lemma closed_add_node (G : Graph.t) (u : Z) :
  closed G → closed (Graph.add_node G u).
Proof.
  intros Hclosed a b (nbrs & Hl & Hin). rewrite lookup_add_node in Hl.
  destruct (Graph.lookup G a) as [nbrs'|] eqn:Ha.
  - injection Hl as ->.
    assert (b ∈ Graph.nodes G) as Hb by (apply (Hclosed a b); by exists nbrs).
    rewrite nodes_add_node. case_decide; [done |]. apply elem_of_app. by left.
  - case_decide; [| done]. injection Hl as <-. by apply elem_of_nil in Hin.
Qed.

(** A walk that the loop of [do_a_walk] returns before it has
    [walk_length] nodes ends at a node without neighbours. *)
Lemma walk_loop_stops (args : DeepWalker.Args) (rng : nat → nat) (G : Graph.t)
    (fuel : nat) (nodes : list Z) (s : nat) (walk : list Z) (s' : nat) :
  DeepWalker.walk_loop args rng G fuel nodes s = Ok (walk, s') →
  Z.of_nat (length walk) < DeepWalker.walk_length args →
  ∃ cur, last walk = Some cur ∧ Graph.neighbors G cur = Ok [].
Proof.
  revert nodes s. induction fuel as [|fuel IH]; intros nodes s; cbn [DeepWalker.walk_loop].
  - destruct (Z.ltb_spec (Z.of_nat (length nodes)) (DeepWalker.walk_length args));
      [done |].
    intros [= <- <-]. lia.
  - destruct (Z.ltb_spec (Z.of_nat (length nodes)) (DeepWalker.walk_length args));
      [| intros [= <- <-]; lia].
    unfold PyList.last_item. destruct (last nodes) as [cur|] eqn:Hlast; [| done].
    simpl. destruct (Graph.neighbors G cur) as [nebs|e] eqn:Hnebs; [| done].
    simpl. destruct (Nat.ltb_spec 0 (length nebs)) as [Hpos|Hzero].
    + destruct (Random.sample1 rng nebs s) as [[picked s1]|e]; [| done].
      simpl. apply IH.
    + intros [= <- <-] _. exists cur. split; [done |].
      destruct nebs; [done | simpl in Hzero; lia].
Qed.

Lemma no_dead_end_from_edgelist (edgelist : list (Z * Z)) :
  no_dead_end (Graph.from_edgelist edgelist).
Proof. intros n. apply node_has_neighbour. Qed.

Section InitFacts.

Variable args : DeepWalker.Args.
Variable rng : nat → nat.
Variable edgelist : list (Z * Z).

(** What a constructed walker holds. *)
Lemma init_Ok_inv (d : DeepWalker.t) :
  DeepWalker.init args rng edgelist = Ok d →
  DeepWalker.graph d = Graph.from_edgelist edgelist
  ∧ DeepWalker.shape d
    = (Z.of_nat (node_count edgelist), Z.of_nat (node_count edgelist))
  ∧ Forall (corpus_walk args (Graph.from_edgelist edgelist)) (DeepWalker.walks d)
  ∧ DeepWalker.do_processing args (DeepWalker.shape d) (DeepWalker.walks d)
    = Ok (DeepWalker.A d).
Proof.
  unfold DeepWalker.init.
  destruct (do_walks_spec args rng _ (closed_from_edgelist edgelist) 0%nat)
    as (walks & s' & -> & Hwalks).
  simpl. intros (A & HA & [= <-])%bind_Ok. simpl.
  rewrite length_nodes_from_edgelist in *. done.
Qed.

(** Every walk of the corpus of a window no wider than the walks, or of
    single nodes, is processed without an exception. *)
Lemma corpus_processed (walks : list (list Z)) :
  DeepWalker.window_size args ≤ DeepWalker.walk_length args
  ∨ DeepWalker.walk_length args ≤ 1 →
  Forall (corpus_walk args (Graph.from_edgelist edgelist)) walks →
  ∃ lists, DeepWalker.pair_lists args walks = Ok lists.
Proof.
  intros Hwin Hwalks. apply pair_lists_total.
  eapply Forall_impl; [exact Hwalks |].
  intros walk [_ Hfull]. specialize (Hfull (no_dead_end_from_edgelist edgelist)).
  unfold DeepWalker.processor.
  destruct (Z.le_gt_cases (DeepWalker.walk_length args) 1) as [Hone|Hmany].
  - eexists. apply processor_short. lia.
  - eexists. apply processor_inside. lia.
Qed.

(** The constructor returns whenever the labels are dense and the window
    is no wider than the walks. *)
Lemma init_total :
  dense_labels edgelist →
  DeepWalker.window_size args ≤ DeepWalker.walk_length args
  ∨ DeepWalker.walk_length args ≤ 1 →
  ∃ d, DeepWalker.init args rng edgelist = Ok d.
Proof.
  intros Hdense Hwin. unfold DeepWalker.init.
  destruct (do_walks_spec args rng _ (closed_from_edgelist edgelist) 0%nat)
    as (walks & s' & -> & Hwalks).
  simpl.
  destruct (corpus_processed walks Hwin Hwalks) as [lists Hlists].
  destruct (do_processing_total args
              (Z.of_nat (length (Graph.nodes (Graph.from_edgelist edgelist))),
               Z.of_nat (length (Graph.nodes (Graph.from_edgelist edgelist))))
              walks lists Hlists) as [A ->]; [simpl; lia | | by eexists].
  intros i j [v Hv]. unfold DeepWalker.container_of in Hv.
  apply prune_lookup_Some in Hv as [Hv _].
  apply Counter_lookup_Some in Hv as [Hin _].
  destruct (pair_lists_elements args walks lists (i, j) Hlists Hin)
    as (walk & Hwalk & Hi & Hj).
  rewrite Forall_forall in Hwalks.
  destruct (Hwalks walk Hwalk) as [(source & _ & _ & _ & _ & Hnodes) _].
  rewrite Forall_forall in Hnodes.
  rewrite length_nodes_from_edgelist. simpl in *.
  unfold dense_labels in Hdense. rewrite Forall_forall in Hdense.
  split; apply Hdense, nodes_from_edgelist, Hnodes; done.
Qed.

End InitFacts.

(** ** Floats that hold integers *)

(** Rounding a positive integer gives a positive integer. *)
Lemma round_to_pos (p n : Z) : 1 ≤ p → 0 < n → 0 < Float32.round_to p n.
Proof.
  intros Hp Hn. unfold Float32.round_to.
  destruct (Z.ltb_spec (Z.abs n) (2 ^ p)) as [|Hbig]; [done |].
  assert (p ≤ Z.log2 (Z.abs n)) as Hlog by (apply Z.log2_le_pow2; lia).
  set (e := Z.log2 (Z.abs n) - (p - 1)).
  assert (0 < Z.shiftr (Z.abs n) e) as Hq.
  { rewrite Z.shiftr_div_pow2 by lia. apply Z.div_str_pos. split; [lia |].
    etrans; [| apply (Z.log2_spec (Z.abs n)); lia].
    apply Z.pow_le_mono_r; lia. }
  rewrite Z.sgn_pos by lia. rewrite Z.mul_1_l, Z.shiftl_mul_pow2 by lia.
  apply Z.mul_pos_pos; [| lia].
  destruct (_ || _); lia.
Qed.

(** Rounding keeps an even integer even. *)
Lemma round_to_Even (p n : Z) : 1 ≤ p → Z.Even n → Z.Even (Float32.round_to p n).
Proof.
  intros Hp Hn. unfold Float32.round_to.
  destruct (Z.ltb_spec (Z.abs n) (2 ^ p)) as [|Hbig]; [done |].
  assert (p ≤ Z.log2 (Z.abs n)) as Hlog by (apply Z.log2_le_pow2; lia).
  set (e := Z.log2 (Z.abs n) - (p - 1)).
  set (q := if _ : bool then _ else _).
  exists (Z.sgn n * (q * 2 ^ (e - 1))).
  rewrite Z.shiftl_mul_pow2 by lia.
  replace (2 ^ e) with (2 * 2 ^ (e - 1)).
  - lia.
  - rewrite <- Z.pow_succ_r by lia. f_equal. lia.
Qed.

(** The float of a positive count is positive. *)
Lemma of_int_pos (n : Z) : 0 < n → 0 < Float32.of_int n.
Proof.
  intros Hn. unfold Float32.of_int. by do 2 (apply round_to_pos; [lia |]).
Qed.

(** Rounding to a float keeps an even count even. *)
Lemma of_int_Even (n : Z) : Z.Even n → Z.Even (Float32.of_int n).
Proof.
  intros Hn. unfold Float32.of_int. by do 2 (apply round_to_Even; [lia |]).
Qed.

(** The two roundings differ from one rounding to 24 bits: the double
    nearest to [2^60 + 2^36 + 1] is [2^60 + 2^36], half way between two
    floats, and goes to the even one. *)
Lemma of_int_rounds_twice :
  Float32.of_int (2 ^ 60 + 2 ^ 36 + 1) = 2 ^ 60
  ∧ Float32.round_to 24 (2 ^ 60 + 2 ^ 36 + 1) = 2 ^ 60 + 2 ^ 37.
Proof. by vm_compute. Qed.

Section ProcessingData.

Variable args : DeepWalker.Args.

(** The stored entries of the matrix are the floats of the pruned counts. *)
Lemma do_processing_data (shape : Z * Z) (walks : list (list Z)) (A : Sparse.csr Z)
    (lists : list (list (Z * Z))) :
  DeepWalker.do_processing args shape walks = Ok A →
  DeepWalker.pair_lists args walks = Ok lists →
  Sparse.csr_data A = Float32.of_int <$> DeepWalker.container_of args lists.
Proof.
  intros (lists' & Hl & _ & Hstored & _)%do_processing_Ok_inv Hlists.
  rewrite Hlists in Hl. injection Hl as <-.
  apply map_eq. intros [i j]. rewrite lookup_fmap. apply Hstored.
Qed.

(** The pruned mapping holds exactly the observed pairs whose count
    exceeds the threshold, each with its count. *)
Lemma container_of_lookup (lists : list (list (Z * Z))) (k : Z * Z) (v : Z) :
  DeepWalker.container_of args lists !! k = Some v
  ↔ k ∈ concat lists
    ∧ v = Z.of_nat (occurrences k (concat lists))
    ∧ DeepWalker.pruning_threshold args < v.
Proof.
  unfold DeepWalker.container_of.
  rewrite prune_lookup_Some, Counter_lookup_Some. tauto.
Qed.

(** The pruned mapping of a mirrored stream is symmetric. *)
Lemma container_of_symmetric (lists : list (list (Z * Z))) (a b : Z) :
  mirrored (concat lists) →
  DeepWalker.container_of args lists !! (a, b)
  = DeepWalker.container_of args lists !! (b, a).
Proof.
  intros Hm. unfold DeepWalker.container_of.
  rewrite !prune_lookup, !Counter_lookup.
  by rewrite (mirrored_balanced _ (a, b) Hm).
Qed.

End ProcessingData.

(** ** Changing the threshold *)

Lemma for_each_ext {X S : Type} (body1 body2 : X → S → result S) (xs : list X) (s : S) :
  (∀ x s, body1 x s = body2 x s) →
  PyList.for_each body1 xs s = PyList.for_each body2 xs s.
Proof.
  intros Hext. revert s. induction xs as [|x xs IH]; intros s; simpl; [done |].
  rewrite Hext. destruct (body2 x s); simpl; auto.
Qed.

Section ThresholdFacts.

Variable args : DeepWalker.Args.
Variable rng : nat → nat.
Variable t : Z.

(** The walks do not depend on the threshold. *)
Lemma walk_loop_threshold (G : Graph.t) (fuel : nat) (nodes : list Z) (s : nat) :
  DeepWalker.walk_loop (with_threshold args t) rng G fuel nodes s
  = DeepWalker.walk_loop args rng G fuel nodes s.
Proof.
  revert nodes s. induction fuel as [|fuel IH]; intros nodes s; simpl; [done |].
  destruct (Z.of_nat (length nodes) <? DeepWalker.walk_length args); [| done].
  destruct (PyList.last_item nodes) as [cur|]; simpl; [| done].
  destruct (Graph.neighbors G cur) as [nebs|]; simpl; [| done].
  destruct (0 <? length nebs)%nat; [| done].
  destruct (Random.sample1 rng nebs s) as [[picked s']|]; simpl; [| done].
  apply IH.
Qed.

Lemma do_walks_threshold (G : Graph.t) (s : nat) :
  DeepWalker.do_walks (with_threshold args t) rng G s
  = DeepWalker.do_walks args rng G s.
Proof.
  unfold DeepWalker.do_walks. apply for_each_ext. intros _ st.
  apply for_each_ext. intros node [walks s0].
  unfold DeepWalker.do_a_walk. by rewrite walk_loop_threshold.
Qed.

Lemma pair_lists_threshold (walks : list (list Z)) :
  DeepWalker.pair_lists (with_threshold args t) walks
  = DeepWalker.pair_lists args walks.
Proof. reflexivity. Qed.

End ThresholdFacts.

(** A higher threshold keeps a part of what a lower one keeps. *)
Lemma prune_antitone (t1 t2 : Z) (c : gmap (Z * Z) Z) :
  t1 ≤ t2 → DeepWalker.prune t2 c ⊆ DeepWalker.prune t1 c.
Proof.
  intros Hle. apply map_subseteq_spec. intros k v.
  rewrite !prune_lookup_Some. intros [? ?]. split; [done | lia].
Qed.

Lemma consecutive_impl (R R' : Z → Z → Prop) (l : list Z) :
  (∀ x y, R x y → R' x y) → consecutive R l → consecutive R' l.
Proof.
  intros HR. induction l as [|a [|b l] IH]; [done.. |].
  intros [Hab Hrest]. split; [by apply HR | by apply IH].
Qed.

(** ** [sampling] *)

Section SamplingFacts.

Context {K num : Type}.
Variable add : num → num → num.
Variable leb : num → num → bool.

Lemma cumulative_from_cons (score : num) (key : K) (value : num)
    (items : list (K * num)) (n : nat) :
  cumulative_from add score ((key, value) :: items) (S n)
  = cumulative_from add (add score value) items n.
Proof. reflexivity. Qed.

Lemma cumulative_from_one (score : num) (key : K) (value : num) (items : list (K * num)) :
  cumulative_from add score ((key, value) :: items) 1 = add score value.
Proof. reflexivity. Qed.

(** The loop returns the key of the first item at which the accumulated
    weight reaches the draw. *)
Lemma loop_Ok (prob score : num) (items : list (K * num)) (key : K) :
  Sampling.loop_with add leb prob score items = Ok key
  ↔ ∃ i w, items !! i = Some (key, w)
           ∧ leb prob (cumulative_from add score items (S i)) = true
           ∧ ∀ j, (j < i)%nat →
                  leb prob (cumulative_from add score items (S j)) = false.
Proof.
  revert score. induction items as [|[k v] items IH]; intros score.
  - simpl. split; [done | by intros (i & w & ? & _)].
  - cbn [Sampling.loop_with].
    destruct (leb prob (add score v)) eqn:Hle.
    + split.
      * intros [= <-]. exists 0%nat, v. split; [done |]. split; [done |].
        intros j Hj. lia.
      * intros (i & w & Hi & _ & Hmin). destruct i as [|i].
        -- simpl in Hi. by injection Hi as -> _.
        -- specialize (Hmin 0%nat ltac:(lia)).
           rewrite cumulative_from_one in Hmin. congruence.
    + rewrite IH. split.
      * intros (i & w & Hi & Hreach & Hmin). exists (S i), w.
        split; [done |]. split; [by rewrite cumulative_from_cons |].
        intros [|j] Hj.
        -- by rewrite cumulative_from_one.
        -- rewrite cumulative_from_cons. apply Hmin. lia.
      * intros (i & w & Hi & Hreach & Hmin). destruct i as [|i].
        -- rewrite cumulative_from_one in Hreach. congruence.
        -- exists i, w. split; [done |].
           split; [by rewrite <- (cumulative_from_cons score k v) |].
           intros j Hj. rewrite <- (cumulative_from_cons score k v). apply Hmin. lia.
Qed.


End SamplingFacts.


(** Each addition of the loop is rounded: with the weights [0.1], [0.2]
    and [0.7] and the draw [0.30000000000000004], which is the float sum
    of [0.1] and [0.2] and lies above their exact sum, the second key is
    returned. *)
Lemma sampling_rounds_each_addition :
  let tenth (n : Z) := Float64.div (Float64.of_int n) (Float64.of_int 10) in
  Float64.add (tenth 1) (tenth 2) = S754_finite false 5404319552844596 (-54)
  ∧ tenth 3 = S754_finite false 5404319552844595 (-54)
  ∧ Sampling.sampling [(1, tenth 1); (2, tenth 2); (3, tenth 7)]
      (S754_finite false 5404319552844596 (-54)) = Ok 2.
Proof. by vm_compute. Qed.

(** ** [read_matrix] *)

Lemma values_at_fmap {W V : Type} (f : W → V) (k : Z * Z) (l : list ((Z * Z) * W)) :
  values_at k ((λ kv, (kv.1, f kv.2)) <$> l) = f <$> values_at k l.
Proof.
  induction l as [|[k' w] l IH]; [done |].
  rewrite fmap_cons. simpl. rewrite !values_at_cons, IH. by case_decide.
Qed.

Lemma values_at_nonempty_iff {V : Type} (k : Z * Z) (l : list ((Z * Z) * V)) :
  values_at k l ≠ [] ↔ ∃ v, (k, v) ∈ l.
Proof.
  induction l as [|[k' w] l IH].
  - split; [done | intros [v ?%elem_of_nil]; done].
  - rewrite values_at_cons. destruct (decide (k' = k)) as [->|Hne].
    + split; [intros _; exists w; by left | done].
    + rewrite IH. split.
      * intros [v Hin]. exists v. by right.
      * intros [v [[= ? ?]|Hin]%elem_of_cons]; [done | by exists v].
Qed.

Lemma combine_is_Some {V : Type} (vadd : V → V → V) (vs : list V) :
  is_Some (combine vadd vs) ↔ vs ≠ [].
Proof.
  destruct vs as [|v vs]; simpl.
  - split; [by intros [? ?] | done].
  - split; [done | by eexists].
Qed.

(** * The claims *)

(** C1 (the code departs from the claim).  The claim: an offset at or
    beyond the length of the walk contributes no pairs and raises nothing.
    The code: for the walk [[0, 1]] and the offset [3] the slice
    [walk[0:len(walk)-omega]] is [walk[0:-1] = [0]] while [walk[3:]] is
    empty, so [nebs[0]] raises [IndexError]; the whole extractor raises for
    the window size 3, and so does the construction of a walker on the
    single edge [(0, 1)] with walks of two nodes. *)
Theorem C1_offset_beyond_walk_raises :
  Processor.step [0; 1] 3 [] = Raise IndexError
  ∧ Processor.processor 3 [0; 1] = Raise IndexError
  ∧ DeepWalker.init (DeepWalker.MkArgs 2 1 3 0) (λ _, 0%nat) [(0, 1)]
    = Raise IndexError.
Proof. by vm_compute. Qed.

(** Where the pair extractor returns, it returns the pairs of the
    specification.  For a walk and an offset [omega] with
    [1 <= omega < len(walk)], the loop body appends exactly the pairs
    [(walk[i], walk[i+omega])] for [i] in [0, len(walk)-omega), followed by
    their reverses, keeping repetitions; for a window no wider than the
    walk the extractor returns the concatenation of these blocks over the
    offsets [1 .. window_size]; and for a walk of one node it returns the
    empty list whatever the window size. *)
Lemma processor_emits_window_pairs
    (walk : list Z) (window_size omega : Z) (pairs : list (Z * Z)) :
  (1 ≤ omega < Z.of_nat (length walk) →
   Processor.step walk omega pairs
   = Ok (pairs ++ WindowSpec.forward_pairs walk (Z.to_nat omega)
               ++ WindowSpec.backward_pairs walk (Z.to_nat omega)))
  ∧ (window_size ≤ Z.of_nat (length walk) →
     Processor.processor window_size walk
     = Ok (WindowSpec.window_pairs window_size walk))
  ∧ (length walk = 1%nat → Processor.processor window_size walk = Ok []).
Proof.
  split; [| split].
  - intros H. apply step_inside. lia.
  - apply processor_inside.
  - intros H. apply processor_short. lia.
Qed.

Lemma processor_emits_window_pairs_example :
  Processor.step [5; 6; 7; 5] 2 [(1, 1)]
    = Ok [(1, 1); (5, 7); (6, 5); (7, 5); (5, 6)]
  ∧ Processor.processor 2 [5; 6; 5]
    = Ok [(5, 6); (6, 5); (6, 5); (5, 6); (5, 5); (5, 5)]
  ∧ Processor.processor 7 [5] = Ok [].
Proof.
  split; [| split].
  - apply (proj1 (processor_emits_window_pairs [5; 6; 7; 5] 0 2 [(1, 1)])).
    simpl. lia.
  - apply (proj1 (proj2 (processor_emits_window_pairs [5; 6; 5] 2 0 []))).
    simpl. lia.
  - apply (proj2 (proj2 (processor_emits_window_pairs [5] 7 0 []))).
    reflexivity.
Qed.

(** C5 (the code departs from the claim).  The claim: for every walk and
    every offset [omega] from 1 to [window_size] that is below the length
    of the walk, the extractor emits the pairs [(walk[i], walk[i+omega])]
    and their reverses.  The code: for the walk [[0, 1]] and the window
    size 3, the offset 1 is such an offset and its pairs are [(0, 1)] and
    [(1, 0)]; the loop body run at the offset 1 alone yields them, but the
    extractor goes on to the offset 3, raises [IndexError] there and
    returns no pair at all.  It is the defect of C1, met at a window wider
    than a walk of two nodes or more. *)
Theorem C5_wide_window_emits_nothing :
  1 ≤ 1 ≤ 3 ∧ 1 < Z.of_nat (length [0; 1])
  ∧ WindowSpec.offset_pairs [0; 1] 1 = [(0, 1); (1, 0)]
  ∧ Processor.step [0; 1] 1 [] = Ok [(0, 1); (1, 0)]
  ∧ Processor.processor 3 [0; 1] = Raise IndexError
  ∧ ∀ pairs, Processor.processor 3 [0; 1] ≠ Ok pairs.
Proof.
  split; [lia |]. split; [simpl; lia |]. split; [reflexivity |].
  split; [reflexivity |]. split; [reflexivity |]. intros pairs. by vm_compute.
Qed.

(** C2.  Whenever the walker is constructed, its matrix is symmetric:
    [A[i, j] = A[j, i]] for all [i] and [j], stored entries included.  The
    pair stream of the corpus counts [(a, b)] as often as [(b, a)], and
    pruning with one threshold keeps or drops the two together. *)
Theorem C2_matrix_symmetric
    (args : DeepWalker.Args) (rng : nat → nat) (edgelist : list (Z * Z))
    (d : DeepWalker.t) :
  DeepWalker.init args rng edgelist = Ok d →
  (∀ i j, Sparse.get (DeepWalker.A d) i j = Sparse.get (DeepWalker.A d) j i)
  ∧ (∀ i j, Sparse.stored (DeepWalker.A d) i j = Sparse.stored (DeepWalker.A d) j i)
  ∧ ∃ lists,
      DeepWalker.pair_lists args (DeepWalker.walks d) = Ok lists
      ∧ (∀ a b, count_of (DeepWalker.Counter (concat lists)) (a, b)
                = count_of (DeepWalker.Counter (concat lists)) (b, a))
      ∧ (∀ a b, DeepWalker.container_of args lists !! (a, b)
                = DeepWalker.container_of args lists !! (b, a)).
Proof.
  intros (_ & _ & _ & Hproc)%init_Ok_inv.
  apply do_processing_Ok_inv in Hproc as (lists & Hlists & _ & Hstored & _).
  pose proof (pair_lists_mirrored args _ _ Hlists) as Hm.
  assert (∀ i j, Sparse.stored (DeepWalker.A d) i j
                 = Sparse.stored (DeepWalker.A d) j i) as Hsym.
  { intros i j. by rewrite !Hstored, (container_of_symmetric args lists i j Hm). }
  split; [| split; [done |]].
  - intros i j. unfold Sparse.get. by rewrite Hsym.
  - exists lists. split; [done |]. split.
    + intros a b. rewrite !count_of_Counter.
      by rewrite (mirrored_balanced _ (a, b) Hm).
    + intros a b. by apply container_of_symmetric.
Qed.

Lemma C2_matrix_symmetric_witness :
  ∃ d, DeepWalker.init demo_args (λ n, n) triangle = Ok d
       ∧ Sparse.get (DeepWalker.A d) 1 2 = 3
       ∧ ∀ i j, Sparse.get (DeepWalker.A d) i j = Sparse.get (DeepWalker.A d) j i.
Proof.
  eexists. split; [by vm_compute |]. split; [by vm_compute |].
  apply (C2_matrix_symmetric demo_args (λ n, n) triangle). by vm_compute.
Defined.

(** C10.  Whenever the walker is constructed, every list the pair
    extractor returned holds each self-pair [(a, a)] an even number of
    times, the count of [(a, a)] over the whole corpus is even, and every
    stored diagonal entry of the matrix is an even value. *)
Theorem C10_diagonal_counts_even
    (args : DeepWalker.Args) (rng : nat → nat) (edgelist : list (Z * Z))
    (d : DeepWalker.t) :
  DeepWalker.init args rng edgelist = Ok d →
  (∃ lists,
     DeepWalker.pair_lists args (DeepWalker.walks d) = Ok lists
     ∧ Forall (λ pairs, ∀ a, Nat.Even (occurrences (a, a) pairs)) lists
     ∧ ∀ a, Z.Even (count_of (DeepWalker.Counter (concat lists)) (a, a)))
  ∧ ∀ a v, Sparse.stored (DeepWalker.A d) a a = Some v → Z.Even v.
Proof.
  intros (_ & _ & _ & Hproc)%init_Ok_inv.
  apply do_processing_Ok_inv in Hproc as (lists & Hlists & _ & Hstored & _).
  pose proof (pair_lists_mirrored args _ _ Hlists) as Hm.
  assert (∀ a, Z.Even (count_of (DeepWalker.Counter (concat lists)) (a, a))) as Heven.
  { intros a. rewrite count_of_Counter.
    destruct (mirrored_diagonal _ a Hm) as [n ->]. exists (Z.of_nat n). lia. }
  split.
  - exists lists. split; [done |]. split; [| done].
    apply pair_lists_Ok in Hlists. clear -Hlists.
    induction Hlists as [|walk pairs walks lists Hp _ IH]; constructor; [| done].
    intros a. apply processor_mirrored in Hp.
    destruct (mirrored_diagonal _ a Hp) as [n ->]. by exists n.
  - intros a v. rewrite Hstored.
    destruct (DeepWalker.container_of args lists !! (a, a)) as [c|] eqn:Hc; [| done].
    intros [= <-]. apply of_int_Even.
    apply container_of_lookup in Hc as (_ & -> & _).
    specialize (Heven a). by rewrite count_of_Counter in Heven.
Qed.

Lemma C10_diagonal_counts_even_witness :
  ∃ d, DeepWalker.init (DeepWalker.MkArgs 3 1 2 0) (λ _, 0%nat) triangle = Ok d
       ∧ Sparse.stored (DeepWalker.A d) 1 1 = Some 2
       ∧ ∀ a v, Sparse.stored (DeepWalker.A d) a a = Some v → Z.Even v.
Proof.
  eexists. split; [by vm_compute |]. split; [by vm_compute |].
  apply (C10_diagonal_counts_even (DeepWalker.MkArgs 3 1 2 0) (λ _, 0%nat) triangle).
  by vm_compute.
Defined.

(** C4.  Whenever the walker is constructed, the pruned mapping holds
    exactly the pairs of the stream whose count is greater than the
    threshold, each with its count; the matrix stores an entry at exactly
    these coordinates, the float of the count; and with the threshold 0
    every observed pair is stored. *)
Theorem C4_pruning_keeps_counts_above_threshold
    (args : DeepWalker.Args) (rng : nat → nat) (edgelist : list (Z * Z))
    (d : DeepWalker.t) :
  DeepWalker.init args rng edgelist = Ok d →
  ∃ lists,
    DeepWalker.pair_lists args (DeepWalker.walks d) = Ok lists
    ∧ (∀ k v, DeepWalker.container_of args lists !! k = Some v
              ↔ k ∈ concat lists
                ∧ v = Z.of_nat (occurrences k (concat lists))
                ∧ DeepWalker.pruning_threshold args < v)
    ∧ (∀ i j, Sparse.stored (DeepWalker.A d) i j
              = Float32.of_int <$> DeepWalker.container_of args lists !! (i, j))
    ∧ (∀ i j, is_Some (Sparse.stored (DeepWalker.A d) i j)
              ↔ (i, j) ∈ concat lists
                ∧ DeepWalker.pruning_threshold args
                  < Z.of_nat (occurrences (i, j) (concat lists)))
    ∧ (DeepWalker.pruning_threshold args = 0 →
       ∀ i j, (i, j) ∈ concat lists → is_Some (Sparse.stored (DeepWalker.A d) i j)).
Proof.
  intros (_ & _ & _ & Hproc)%init_Ok_inv.
  apply do_processing_Ok_inv in Hproc as (lists & Hlists & _ & Hstored & _).
  assert (∀ i j, is_Some (Sparse.stored (DeepWalker.A d) i j)
                 ↔ (i, j) ∈ concat lists
                   ∧ DeepWalker.pruning_threshold args
                     < Z.of_nat (occurrences (i, j) (concat lists))) as Hiff.
  { intros i j. rewrite Hstored, fmap_is_Some. unfold is_Some.
    setoid_rewrite container_of_lookup. split.
    - intros (v & ? & -> & ?). done.
    - intros [? ?]. eexists. done. }
  exists lists. split; [done |]. split; [apply container_of_lookup |].
  split; [done |]. split; [done |].
  intros Hzero i j Hin. apply Hiff. split; [done |].
  apply occurrences_pos in Hin. lia.
Qed.

Lemma C4_pruning_keeps_counts_above_threshold_witness :
  ∃ d, DeepWalker.init (DeepWalker.MkArgs 3 1 1 2) (λ n, n) triangle = Ok d
       ∧ map_to_list (Sparse.csr_data (DeepWalker.A d)) = [((1, 2), 3); ((2, 1), 3)]
       ∧ ∃ lists,
           DeepWalker.pair_lists (DeepWalker.MkArgs 3 1 1 2) (DeepWalker.walks d) = Ok lists
           ∧ ∀ i j, is_Some (Sparse.stored (DeepWalker.A d) i j)
                    ↔ (i, j) ∈ concat lists
                      ∧ 2 < Z.of_nat (occurrences (i, j) (concat lists)).
Proof.
  eexists. split; [by vm_compute |]. split; [by vm_compute |].
  destruct (C4_pruning_keeps_counts_above_threshold
              (DeepWalker.MkArgs 3 1 1 2) (λ n, n) triangle _ eq_refl)
    as (lists & Hlists & _ & _ & Hiff & _).
  exists lists. split; [exact Hlists | exact Hiff].
Defined.

(** C6.  For one edge list, one configuration and one sequence of draws,
    and two thresholds [t1 < t2]: the mapping pruned at [t2] is a part of
    the mapping pruned at [t1]; and whenever the walker is constructed at
    [t1] it is constructed at [t2] on the same walks, its matrix stores
    entries only where the matrix at [t1] does, and it has no more stored
    entries; no stored entry of either matrix is zero. *)
Theorem C6_pruning_antitone
    (args : DeepWalker.Args) (rng : nat → nat) (edgelist : list (Z * Z))
    (t1 t2 : Z) (d1 : DeepWalker.t) :
  t1 < t2 →
  DeepWalker.init (with_threshold args t1) rng edgelist = Ok d1 →
  (∀ c, DeepWalker.prune t2 c ⊆ DeepWalker.prune t1 c)
  ∧ ∃ d2,
      DeepWalker.init (with_threshold args t2) rng edgelist = Ok d2
      ∧ DeepWalker.walks d2 = DeepWalker.walks d1
      ∧ (∀ i j, is_Some (Sparse.stored (DeepWalker.A d2) i j) →
                is_Some (Sparse.stored (DeepWalker.A d1) i j))
      ∧ (Sparse.nnz (DeepWalker.A d2) ≤ Sparse.nnz (DeepWalker.A d1))%nat
      ∧ (∀ i j v, Sparse.stored (DeepWalker.A d1) i j = Some v → v ≠ 0)
      ∧ (∀ i j v, Sparse.stored (DeepWalker.A d2) i j = Some v → v ≠ 0).
Proof.
  intros Hlt Hinit. split; [intros c; apply prune_antitone; lia |].
  pose proof Hinit as (_ & Hshape & _ & Hproc)%init_Ok_inv.
  pose proof Hproc as (lists & Hlists & _ & Hstored1 & Hbounds)%do_processing_Ok_inv.
  pose proof (do_processing_data _ _ _ _ _ Hproc Hlists) as Hdata1.
  assert (DeepWalker.container_of (with_threshold args t2) lists
          ⊆ DeepWalker.container_of (with_threshold args t1) lists) as Hsub.
  { apply prune_antitone. simpl. lia. }
  destruct (do_processing_total (with_threshold args t2) (DeepWalker.shape d1)
              (DeepWalker.walks d1) lists Hlists) as [A2 HA2].
  { rewrite Hshape. simpl. lia. }
  { intros i j [v Hv]. apply Hbounds. exists v.
    eapply lookup_weaken; [exact Hv | exact Hsub]. }
  pose proof (do_processing_data _ _ _ _ _ HA2 Hlists) as Hdata2.
  unfold DeepWalker.init in Hinit |- *.
  rewrite do_walks_threshold in Hinit |- *.
  destruct (DeepWalker.do_walks args rng (Graph.from_edgelist edgelist) 0%nat)
    as [[walks s']|]; simpl in Hinit |- *; [| done].
  apply bind_Ok in Hinit as (A1 & HA1 & [= <-]). simpl in *.
  rewrite HA2. simpl. eexists. split; [done |]. simpl. split; [done |].
  assert (Sparse.csr_data A2 ⊆ Sparse.csr_data A1) as HA.
  { rewrite Hdata1, Hdata2. by apply map_fmap_mono. }
  assert (∀ (t : Z) (A : Sparse.csr Z) i j v,
            Sparse.csr_data A
            = Float32.of_int <$> DeepWalker.container_of (with_threshold args t) lists →
            Sparse.stored A i j = Some v → v ≠ 0) as Hnonzero.
  { intros t A i j v HAdata. unfold Sparse.stored. rewrite HAdata, lookup_fmap.
    destruct (DeepWalker.container_of (with_threshold args t) lists !! (i, j))
      as [c|] eqn:Hc; [| done].
    intros [= <-]. apply container_of_lookup in Hc as (Hin & -> & _).
    apply occurrences_pos in Hin.
    pose proof (of_int_pos (Z.of_nat (occurrences (i, j) (concat lists)))). lia. }
  split; [| split; [| split]].
  - intros i j [v Hv]. exists v. unfold Sparse.stored in *.
    eapply lookup_weaken; [exact Hv | exact HA].
  - unfold Sparse.nnz. by apply map_subseteq_size.
  - intros i j v. by apply (Hnonzero t1).
  - intros i j v. by apply (Hnonzero t2).
Qed.

Lemma C6_pruning_antitone_witness :
  ∃ d1 d2,
    DeepWalker.init (with_threshold demo_args 1) (λ n, n) triangle = Ok d1
    ∧ DeepWalker.init (with_threshold demo_args 2) (λ n, n) triangle = Ok d2
    ∧ Sparse.nnz (DeepWalker.A d1) = 4%nat
    ∧ Sparse.nnz (DeepWalker.A d2) = 2%nat
    ∧ (Sparse.nnz (DeepWalker.A d2) ≤ Sparse.nnz (DeepWalker.A d1))%nat.
Proof.
  eexists. 
  destruct (C6_pruning_antitone demo_args (λ n, n) triangle 1 2 _
              ltac:(lia) eq_refl) as (_ & d2 & Hd2 & _ & _ & Hnnz & _).
  exists d2. split; [reflexivity |]. split; [exact Hd2 |].
  split; [by vm_compute |]. split; [| exact Hnnz].
  vm_compute in Hd2. injection Hd2 as <-. by vm_compute.
Defined.

(** C7.  Whenever the walker is constructed, its matrix and its [shape]
    attribute have the shape [(N, N)], [N] the number of distinct nodes of
    the edge list, whatever the threshold pruned; and it is constructed
    whenever the node ids are [0 .. N-1] and the window is no wider than
    the walks (or the walks are single nodes). *)
Theorem C7_shape_is_node_count
    (args : DeepWalker.Args) (rng : nat → nat) (edgelist : list (Z * Z)) :
  (∀ d, DeepWalker.init args rng edgelist = Ok d →
        Sparse.csr_shape (DeepWalker.A d)
        = (Z.of_nat (node_count edgelist), Z.of_nat (node_count edgelist))
        ∧ DeepWalker.shape d
          = (Z.of_nat (node_count edgelist), Z.of_nat (node_count edgelist)))
  ∧ (dense_labels edgelist →
     DeepWalker.window_size args ≤ DeepWalker.walk_length args
     ∨ DeepWalker.walk_length args ≤ 1 →
     ∃ d, DeepWalker.init args rng edgelist = Ok d
          ∧ Sparse.csr_shape (DeepWalker.A d)
            = (Z.of_nat (node_count edgelist), Z.of_nat (node_count edgelist))).
Proof.
  assert (∀ d, DeepWalker.init args rng edgelist = Ok d →
        Sparse.csr_shape (DeepWalker.A d)
        = (Z.of_nat (node_count edgelist), Z.of_nat (node_count edgelist))
        ∧ DeepWalker.shape d
          = (Z.of_nat (node_count edgelist), Z.of_nat (node_count edgelist)))
    as Hshape.
  { intros d (_ & Hshape & _ & Hproc)%init_Ok_inv.
    apply do_processing_Ok_inv in Hproc as (_ & _ & -> & _). done. }
  split; [done |].
  intros Hdense Hwin.
  destruct (init_total args rng edgelist Hdense Hwin) as [d Hd].
  exists d. split; [done |]. by apply Hshape.
Qed.

Lemma C7_shape_is_node_count_witness :
  node_count tailed_triangle = 4%nat
  ∧ ∃ d, DeepWalker.init (DeepWalker.MkArgs 5 20 1 1000) (λ n, n) tailed_triangle = Ok d
         ∧ Sparse.csr_shape (DeepWalker.A d) = (4, 4)
         ∧ Sparse.nnz (DeepWalker.A d) = 0%nat.
Proof.
  split; [reflexivity |].
  destruct (proj2 (C7_shape_is_node_count
                     (DeepWalker.MkArgs 5 20 1 1000) (λ n, n) tailed_triangle))
    as (d & Hd & Hshape).
  - unfold dense_labels. by vm_compute; repeat constructor.
  - left. simpl. lia.
  - exists d. split; [exact Hd |]. split; [exact Hshape |].
    vm_compute in Hd. injection Hd as <-. reflexivity.
Defined.

(** C3, the claim as stated, fails for a walk length below one: the walk
    always holds its source, so with [walk_length = 0] it has one node,
    which is more than [walk_length]. *)
Lemma C3_walk_length_zero_counterexample :
  DeepWalker.do_a_walk (DeepWalker.MkArgs 0 1 1 0) (λ _, 0%nat)
    (Graph.from_edgelist triangle) 0 0%nat = Ok ([0], 0%nat)
  ∧ ¬ (1 ≤ Z.of_nat (length [0])
         ≤ DeepWalker.walk_length (DeepWalker.MkArgs 0 1 1 0)).
Proof. split; [reflexivity | simpl; lia]. Qed.

(** C3, amended.  For every graph (as in networkx, every listed
    neighbour is a node of it), every node of it and every
    configuration, [do_a_walk] returns a walk that starts at the source,
    has at least one node and at most [max(1, walk_length)] nodes (so at
    most [walk_length] when that is one or more), and whose consecutive
    nodes are neighbours in the graph; a walk shorter than [walk_length]
    ends at a node without neighbours; and in the graph of an edge list,
    consecutive nodes are joined by a row of the list. *)
Theorem C3_walk_is_bounded_path
    (args : DeepWalker.Args) (rng : nat → nat) (G : Graph.t) (node : Z) (s : nat) :
  closed G →
  node ∈ Graph.nodes G →
  ∃ walk s',
    DeepWalker.do_a_walk args rng G node s = Ok (walk, s')
    ∧ head walk = Some node
    ∧ 1 ≤ Z.of_nat (length walk) ≤ Z.max 1 (DeepWalker.walk_length args)
    ∧ (1 ≤ DeepWalker.walk_length args →
       Z.of_nat (length walk) ≤ DeepWalker.walk_length args)
    ∧ consecutive (adjacent G) walk
    ∧ (Z.of_nat (length walk) < DeepWalker.walk_length args →
       ∃ cur, last walk = Some cur ∧ Graph.neighbors G cur = Ok [])
    ∧ (∀ edgelist, G = Graph.from_edgelist edgelist →
                   consecutive (edge_of edgelist) walk).
Proof.
  intros Hclosed Hnode.
  destruct (do_a_walk_spec args rng G Hclosed node s Hnode)
    as (walk & s' & Hrun & (Hhead & Hlen & Hcons & _) & _).
  exists walk, s'. split; [done |]. split; [done |]. split; [done |].
  split; [lia |]. split; [done |]. split.
  - intros Hshort. by eapply walk_loop_stops.
  - intros edgelist ->. eapply consecutive_impl; [| exact Hcons].
    intros x y. apply adjacent_from_edgelist.
Qed.

Lemma C3_walk_is_bounded_path_witness :
  closed triangle_and_loner
  ∧ 5 ∈ Graph.nodes triangle_and_loner
  ∧ DeepWalker.do_a_walk demo_args (λ n, n) triangle_and_loner 5 0%nat = Ok ([5], 0%nat)
  ∧ ∃ walk s',
      DeepWalker.do_a_walk demo_args (λ n, n) triangle_and_loner 5 0%nat = Ok (walk, s')
      ∧ head walk = Some 5
      ∧ 1 ≤ Z.of_nat (length walk) ≤ 3
      ∧ (Z.of_nat (length walk) < 3 →
         ∃ cur, last walk = Some cur ∧ Graph.neighbors triangle_and_loner cur = Ok []).
Proof.
  assert (closed triangle_and_loner) as Hclosed
    by apply closed_add_node, closed_from_edgelist.
  assert (5 ∈ Graph.nodes triangle_and_loner) as Hin by (by vm_compute; set_solver).
  split; [exact Hclosed |]. split; [exact Hin |]. split; [reflexivity |].
  destruct (C3_walk_is_bounded_path demo_args (λ n, n) triangle_and_loner 5 0%nat
              Hclosed Hin)
    as (walk & s' & Hrun & Hhead & Hlen & _ & _ & Hstop & _).
  exists walk, s'. split; [exact Hrun |]. split; [exact Hhead |].
  split; [exact Hlen | exact Hstop].
Defined.




(** C9, the claim as stated, fails on two kinds of non-empty dataset.  With
    a negative id, the row [(-1, 0, 5)] gives the shape [(0, 1)] and the
    constructor of the triplet form rejects the row index.  With a score
    that is not an integer, the row [(0, 1, 0.5)] is read as three floats,
    the shape is a pair of floats and the constructor rejects it. *)
Lemma C9_rejected_datasets_counterexample :
  ReadMatrix.read_matrix (ReadMatrix.IntRows [((-1, 0), 5)]) = Raise ValueError
  ∧ ReadMatrix.read_matrix
      (ReadMatrix.FloatRows [((Float64.of_int 0, Float64.of_int 1), one_half)])
    = Raise TypeError.
Proof. split; reflexivity. Qed.

(** C9, amended.  For every non-empty dataset of rows
    [(row_id, col_id, score)] of integers whose ids are not negative,
    [read_matrix] returns a matrix of shape
    [(max row_id + 1, max col_id + 1)] whose entries are of the matrix
    dtype: a score is stored, as a 32-bit float, at the coordinate of its
    row, and nothing is stored at a coordinate of no row.  (Where several
    rows share a coordinate, the entry is what the matrix format makes of
    their scores: their sum in the order of the rows.) *)
Theorem C9_read_matrix_shape_and_entries (dataset : list (Z * Z * Z)) :
  dataset ≠ [] →
  Forall (λ x, 0 ≤ x.1.1 ∧ 0 ≤ x.1.2) dataset →
  ∃ A m1 m2,
    ReadMatrix.read_matrix (ReadMatrix.IntRows dataset) = Ok A
    ∧ is_maximum m1 ((λ x, x.1.1) <$> dataset)
    ∧ is_maximum m2 ((λ x, x.1.2) <$> dataset)
    ∧ Sparse.csr_shape A = (m1 + 1, m2 + 1)
    ∧ (∀ i j s, values_at (i, j) dataset = [s] →
                Sparse.stored A i j = Some (Float32.of_int s))
    ∧ (∀ i j, is_Some (Sparse.stored A i j) ↔ ∃ s, ((i, j), s) ∈ dataset)
    ∧ (∀ i j, Sparse.stored A i j
              = combine Float32.add (Float32.of_int <$> values_at (i, j) dataset)).
Proof.
  intros Hne Hpos. unfold ReadMatrix.read_matrix, ReadMatrix.read_int_rows.
  destruct (max_nonempty ((λ x, x.1.1) <$> dataset)) as [m1 Hm1];
    [by destruct dataset |].
  destruct (max_nonempty ((λ x, x.1.2) <$> dataset)) as [m2 Hm2];
    [by destruct dataset |].
  rewrite Hm1, Hm2. simpl.
  apply max_spec in Hm1, Hm2.
  rewrite Forall_forall in Hpos.
  assert (0 ≤ m1 ∧ 0 ≤ m2) as [Hm1pos Hm2pos].
  { destruct Hm1 as [Hin1 _], Hm2 as [Hin2 _].
    apply list_elem_of_fmap in Hin1 as (x1 & -> & Hx1).
    apply list_elem_of_fmap in Hin2 as (x2 & -> & Hx2).
    split; [by apply (Hpos x1) | by apply (Hpos x2)]. }
  rewrite coo_matrix_Ok; cycle 1.
  { simpl. lia. }
  { simpl. lia. }
  { by rewrite !length_fmap. }
  { by rewrite !length_fmap. }
  { intros r Hr. simpl. split.
    - apply list_elem_of_fmap in Hr as (x & -> & Hx). by apply Hpos.
    - destruct Hm1 as [_ Hle]. specialize (Hle r Hr). lia. }
  { intros c Hc. simpl. split.
    - apply list_elem_of_fmap in Hc as (x & -> & Hx). by apply Hpos.
    - destruct Hm2 as [_ Hle]. specialize (Hle c Hc). lia. }
  simpl. eexists _, m1, m2. split; [done |]. split; [done |]. split; [done |].
  split; [done |].
  assert (∀ i j, Sparse.stored
                   (Sparse.csr_matrix Float32.add
                      (Sparse.Coo (m1 + 1, m2 + 1) ((λ x, x.1.1) <$> dataset)
                         ((λ x, x.1.2) <$> dataset)
                         (Float32.of_int <$> ((λ x, x.2) <$> dataset))))
                   i j
                 = combine Float32.add (Float32.of_int <$> values_at (i, j) dataset))
    as Hstored.
  { intros i j. rewrite csr_matrix_stored. simpl.
    by rewrite zip_items, values_at_fmap. }
  split; [| split; [| done]].
  - intros i j s Hs. by rewrite Hstored, Hs.
  - intros i j. rewrite Hstored, combine_is_Some.
    rewrite <- (values_at_nonempty_iff (i, j) dataset).
    by destruct (values_at (i, j) dataset).
Qed.

Lemma C9_read_matrix_shape_and_entries_witness :
  ∃ A, ReadMatrix.read_matrix (ReadMatrix.IntRows [((0, 5), 7); ((2, 1), 3); ((0, 5), 4)])
       = Ok A
       ∧ Sparse.csr_shape A = (3, 6)
       ∧ Sparse.stored A 2 1 = Some 3
       ∧ Sparse.stored A 0 5 = Some 11.
Proof.
  assert ([((0, 5), 7); ((2, 1), 3); ((0, 5), 4)] ≠ @nil (Z * Z * Z)) as Hne by done.
  assert (Forall (λ x : Z * Z * Z, 0 ≤ x.1.1 ∧ 0 ≤ x.1.2)
            [((0, 5), 7); ((2, 1), 3); ((0, 5), 4)]) as Hpos
    by (repeat constructor; done).
  destruct (C9_read_matrix_shape_and_entries
              [((0, 5), 7); ((2, 1), 3); ((0, 5), 4)] Hne Hpos)
    as (A & m1 & m2 & HA & _ & _ & _ & _ & _ & Hstored).
  exists A. split; [exact HA |].
  vm_compute in HA. injection HA as <-. by vm_compute.
Defined.

(** * Further properties of the code *)

(** ** The pair extractor *)

Lemma processor_Raise_IndexError (window_size : Z) (walk : list Z) (e : exn) :
  Processor.processor window_size walk = Raise e →
  e = IndexError ∧ (2 ≤ length walk)%nat ∧ Z.of_nat (length walk) < window_size.
Proof.
  intros Hrun.
  destruct (decide (length walk ≤ 1)%nat) as [Hshort|Hlong].
  { rewrite processor_short in Hrun by done. done. }
  destruct (Z.le_gt_cases window_size (Z.of_nat (length walk))) as [Hin|Hout].
  { rewrite processor_inside in Hrun by done. done. }
  rewrite processor_beyond in Hrun by lia. injection Hrun as <-.
  split; [done |]. lia.
Qed.

Lemma processor_Ok_iff (window_size : Z) (walk : list Z) :
  (∃ pairs, Processor.processor window_size walk = Ok pairs)
  ↔ processable window_size walk.
Proof.
  unfold processable. split.
  - intros [pairs Hrun].
    destruct (decide (length walk ≤ 1)%nat) as [|Hlong]; [by right |].
    destruct (Z.le_gt_cases window_size (Z.of_nat (length walk))); [by left |].
    rewrite processor_beyond in Hrun by lia. done.
  - intros [Hin|Hshort]; eexists.
    + by apply processor_inside.
    + by apply processor_short.
Qed.

(** X1.  The pair extractor raises exactly when the walk has two or more
    nodes and the window is wider than the walk; the exception is then
    [IndexError], and in every other case a list of pairs is returned. *)
Theorem X1_processor_raises_iff (window_size : Z) (walk : list Z) :
  (Processor.processor window_size walk = Raise IndexError
   ↔ (2 ≤ length walk)%nat ∧ Z.of_nat (length walk) < window_size)
  ∧ ((∃ pairs, Processor.processor window_size walk = Ok pairs)
     ↔ window_size ≤ Z.of_nat (length walk) ∨ (length walk ≤ 1)%nat)
  ∧ (∀ e, Processor.processor window_size walk = Raise e → e = IndexError).
Proof.
  split; [| split].
  - split.
    + by intros (_ & ? & ?)%processor_Raise_IndexError.
    + intros [? ?]. by apply processor_beyond.
  - apply processor_Ok_iff.
  - by intros e (-> & _)%processor_Raise_IndexError.
Qed.

Lemma X1_processor_raises_iff_witness :
  Processor.processor 4 [7; 8; 9] = Raise IndexError
  ∧ ∃ pairs, Processor.processor 3 [7; 8; 9] = Ok pairs.
Proof.
  split.
  - apply (proj1 (X1_processor_raises_iff 4 [7; 8; 9])). simpl. lia.
  - apply (proj1 (proj2 (X1_processor_raises_iff 3 [7; 8; 9]))). left. simpl. lia.
Defined.

Lemma offset_pairs_length (walk : list Z) (omega : nat) :
  length (WindowSpec.offset_pairs walk omega) = (2 * (length walk - omega))%nat.
Proof.
  unfold WindowSpec.offset_pairs, WindowSpec.forward_pairs, WindowSpec.backward_pairs.
  rewrite length_app, !length_fmap, !length_seq. lia.
Qed.

Lemma window_pairs_length (walk : list Z) (n : nat) :
  (n ≤ length walk)%nat →
  Z.of_nat (length (WindowSpec.window_pairs (Z.of_nat n) walk))
  = Z.of_nat n * (2 * Z.of_nat (length walk) - Z.of_nat n - 1).
Proof.
  unfold WindowSpec.window_pairs. induction n as [|n IH]; intros Hn; [done |].
  replace (Z.of_nat (S n) + 1) with (Z.of_nat n + 1 + 1) by lia.
  rewrite (range_split 1 (Z.of_nat n + 1) (Z.of_nat n + 1 + 1)) by lia.
  rewrite (range_cons (Z.of_nat n + 1)) by lia.
  rewrite (range_split (Z.of_nat n + 1 + 1) (Z.of_nat n + 1 + 1)) by lia.
  unfold PyList.range at 2 3. rewrite Z.sub_diag. simpl.
  rewrite fmap_app, concat_app, length_app. simpl.
  rewrite app_nil_r, offset_pairs_length.
  rewrite Nat2Z.inj_add, IH by lia. lia.
Qed.

(** X2.  For a window between 0 and the length of the walk, the pair
    extractor returns [window_size * (2 * len(walk) - window_size - 1)]
    pairs: two for every two positions at most [window_size] apart. *)
Theorem X2_processor_pair_count (window_size : Z) (walk : list Z) :
  0 ≤ window_size ≤ Z.of_nat (length walk) →
  ∃ pairs,
    Processor.processor window_size walk = Ok pairs
    ∧ Z.of_nat (length pairs)
      = window_size * (2 * Z.of_nat (length walk) - window_size - 1).
Proof.
  intros H. eexists. split; [apply processor_inside; lia |].
  rewrite <- (Z2Nat.id window_size) by lia.
  apply window_pairs_length. lia.
Qed.

Lemma X2_processor_pair_count_witness :
  ∃ pairs, Processor.processor 3 [1; 2; 3; 4; 5] = Ok pairs
           ∧ Z.of_nat (length pairs) = 18.
Proof.
  apply (X2_processor_pair_count 3 [1; 2; 3; 4; 5]). simpl. lia.
Defined.

Lemma elem_of_concat {A : Type} (x : A) (ls : list (list A)) :
  x ∈ concat ls ↔ ∃ l, x ∈ l ∧ l ∈ ls.
Proof.
  induction ls as [|l ls IH]; simpl.
  - split; [by intros ?%elem_of_nil | by intros (? & _ & ?%elem_of_nil)].
  - rewrite elem_of_app, IH. split.
    + intros [?|(l' & ? & ?)]; [exists l; split; [done | by left] |].
      exists l'. split; [done | by right].
    + intros (l' & Hx & [->|?]%elem_of_cons); [by left |]. right. by exists l'.
Qed.

(** X3.  Every pair the extractor returns joins two positions of the walk
    that are distinct and at most [window_size] apart. *)
Theorem X3_processor_pairs_within_window
    (window_size : Z) (walk : list Z) (pairs : list (Z * Z)) (p : Z * Z) :
  Processor.processor window_size walk = Ok pairs →
  p ∈ pairs →
  ∃ i j : nat,
    walk !! i = Some p.1 ∧ walk !! j = Some p.2
    ∧ 1 ≤ Z.abs (Z.of_nat i - Z.of_nat j) ≤ window_size.
Proof.
  intros Hrun Hp.
  destruct (decide (length walk ≤ 1)%nat) as [Hshort|Hlong].
  { rewrite processor_short in Hrun by done. injection Hrun as <-.
    by apply elem_of_nil in Hp. }
  destruct (Z.le_gt_cases window_size (Z.of_nat (length walk))) as [Hin|Hout];
    [| by rewrite processor_beyond in Hrun by lia].
  rewrite processor_inside in Hrun by done. injection Hrun as <-.
  unfold WindowSpec.window_pairs in Hp.
  apply elem_of_concat in Hp as (block & Hp & Hblock).
  apply list_elem_of_fmap in Hblock as (omega & -> & Homega%range_elem_of).
  unfold WindowSpec.offset_pairs, WindowSpec.forward_pairs,
    WindowSpec.backward_pairs in Hp.
  apply elem_of_app in Hp as [Hp|Hp];
    apply list_elem_of_fmap in Hp as (i & -> & Hi%elem_of_seq); simpl.
  - exists i, (i + Z.to_nat omega)%nat.
    split; [apply list_lookup_lookup_total_lt; lia |].
    split; [apply list_lookup_lookup_total_lt; lia |]. lia.
  - exists (i + Z.to_nat omega)%nat, i.
    split; [apply list_lookup_lookup_total_lt; lia |].
    split; [apply list_lookup_lookup_total_lt; lia |]. lia.
Qed.

Lemma X3_processor_pairs_within_window_witness :
  ∃ i j : nat,
    [5; 6; 7] !! i = Some 5 ∧ [5; 6; 7] !! j = Some 7
    ∧ 1 ≤ Z.abs (Z.of_nat i - Z.of_nat j) ≤ 2.
Proof.
  apply (X3_processor_pairs_within_window 2 [5; 6; 7]
           [(5, 6); (6, 7); (6, 5); (7, 6); (5, 7); (7, 5)] (5, 7)).
  - reflexivity.
  - by vm_compute; repeat constructor.
Defined.

(** ** The graph store *)

(** X4.  The graph is undirected and holds the rows of the edge list and
    nothing else: [v] is a neighbour of [u] exactly when [u] is a neighbour
    of [v], exactly when the edge list has the row [(u, v)] or [(v, u)];
    a node is its own neighbour exactly when the edge list has the row
    [(u, u)]. *)
Theorem X4_graph_undirected (edgelist : list (Z * Z)) (u v : Z) :
  (adjacent (Graph.from_edgelist edgelist) u v
   ↔ (u, v) ∈ edgelist ∨ (v, u) ∈ edgelist)
  ∧ (adjacent (Graph.from_edgelist edgelist) u v
     ↔ adjacent (Graph.from_edgelist edgelist) v u)
  ∧ (adjacent (Graph.from_edgelist edgelist) u u ↔ (u, u) ∈ edgelist).
Proof.
  rewrite !adjacent_from_edgelist. unfold edge_of. tauto.
Qed.

Lemma X4_graph_undirected_witness :
  adjacent (Graph.from_edgelist tailed_triangle) 0 3.
Proof.
  apply (proj1 (X4_graph_undirected tailed_triangle 0 3)).
  right. by vm_compute; repeat constructor.
Defined.

Lemma NoDup_set_key (nbrs : list Z) (v : Z) :
  NoDup nbrs → NoDup (Graph.set_key nbrs v).
Proof.
  intros Hnd. unfold Graph.set_key. case_decide as Hv; [done |].
  apply NoDup_app. split; [done |]. split; [| apply NoDup_singleton].
  by intros x Hx ->%list_elem_of_singleton.
Qed.

Lemma NoDup_neighbours_add_edge (G : Graph.t) (e : Z * Z) :
  (∀ u nbrs, Graph.lookup G u = Some nbrs → NoDup nbrs) →
  ∀ u nbrs, Graph.lookup (Graph.add_edge G e) u = Some nbrs → NoDup nbrs.
Proof.
  intros Hinv u nbrs. destruct e as [a b]. unfold Graph.add_edge. cbv zeta.
  rewrite !lookup_set_adj, !lookup_add_node.
  destruct (Graph.lookup G u) as [nbrs0|] eqn:Hu.
  - specialize (Hinv u nbrs0 Hu).
    repeat case_decide; simpl; intros [= <-]; auto using NoDup_set_key.
  - repeat case_decide; simpl; intros [= <-];
      auto using NoDup_set_key, NoDup_nil_2.
Qed.

Lemma NoDup_neighbours_foldl (G : Graph.t) (edgelist : list (Z * Z)) :
  (∀ u nbrs, Graph.lookup G u = Some nbrs → NoDup nbrs) →
  ∀ u nbrs, Graph.lookup (foldl Graph.add_edge G edgelist) u = Some nbrs → NoDup nbrs.
Proof.
  revert G. induction edgelist as [|e edgelist IH]; intros G Hinv; cbn [foldl];
    [done |].
  by apply IH, NoDup_neighbours_add_edge.
Qed.

(** X5.  Repeated rows and rows given in both orientations collapse: the
    node list of the graph and the neighbour list of every node are free
    of duplicates. *)
Theorem X5_graph_no_duplicates (edgelist : list (Z * Z)) (u : Z) (nbrs : list Z) :
  NoDup (Graph.nodes (Graph.from_edgelist edgelist))
  ∧ (Graph.neighbors (Graph.from_edgelist edgelist) u = Ok nbrs → NoDup nbrs).
Proof.
  split; [apply NoDup_nodes_from_edgelist |].
  intros Hn%neighbors_Ok. revert Hn. apply NoDup_neighbours_foldl. done.
Qed.

Lemma X5_graph_no_duplicates_witness :
  Graph.neighbors (Graph.from_edgelist [(0, 1); (1, 0); (0, 1); (0, 0)]) 0 = Ok [1; 0]
  ∧ NoDup [1; 0].
Proof.
  split; [reflexivity |].
  apply (proj2 (X5_graph_no_duplicates [(0, 1); (1, 0); (0, 1); (0, 0)] 0 [1; 0])).
  reflexivity.
Defined.

(** X6.  [nx.neighbors] raises [NetworkXError] exactly for the nodes the
    edge list does not mention; for every node it mentions the neighbour
    list is returned and is not empty. *)
Theorem X6_neighbors_defined_on_endpoints (edgelist : list (Z * Z)) (n : Z) :
  (n ∈ endpoints edgelist →
   ∃ nbrs, Graph.neighbors (Graph.from_edgelist edgelist) n = Ok nbrs ∧ nbrs ≠ [])
  ∧ (n ∉ endpoints edgelist →
     Graph.neighbors (Graph.from_edgelist edgelist) n = Raise NetworkXError).
Proof.
  split.
  - intros Hn. by apply node_has_neighbour, nodes_from_edgelist.
  - intros Hn. unfold Graph.neighbors.
    rewrite <- nodes_from_edgelist in Hn. apply lookup_None_nodes in Hn.
    by rewrite Hn.
Qed.

Lemma X6_neighbors_defined_on_endpoints_witness :
  (∃ nbrs, Graph.neighbors (Graph.from_edgelist tailed_triangle) 3 = Ok nbrs ∧ nbrs ≠ [])
  ∧ Graph.neighbors (Graph.from_edgelist tailed_triangle) 4 = Raise NetworkXError.
Proof.
  split.
  - apply (proj1 (X6_neighbors_defined_on_endpoints tailed_triangle 3)).
    by vm_compute; repeat constructor.
  - apply (proj2 (X6_neighbors_defined_on_endpoints tailed_triangle 4)).
    unfold endpoints, tailed_triangle. simpl. rewrite !not_elem_of_cons.
    repeat split; try done. apply not_elem_of_nil.
Defined.

Lemma set_adj_present (G : Graph.t) (u v : Z) :
  adjacent G u v → Graph.set_adj G u v = G.
Proof.
  intros (nbrs & Hl & Hin). induction G as [|[m nbrs0] G IH]; [done |].
  simpl in *. destruct (decide (m = u)) as [->|Hne].
  - injection Hl as ->. unfold Graph.set_key. by rewrite decide_True.
  - by rewrite IH.
Qed.

Lemma add_node_present (G : Graph.t) (u v : Z) :
  adjacent G u v → Graph.add_node G u = G.
Proof. intros (nbrs & Hl & _). unfold Graph.add_node. by rewrite Hl. Qed.

(** X7.  Adding a row that the edge list already has, in either
    orientation, leaves the graph as it is. *)
Theorem X7_repeated_edge_is_absorbed (edgelist : list (Z * Z)) (a b : Z) :
  (a, b) ∈ edgelist ∨ (b, a) ∈ edgelist →
  Graph.from_edgelist (edgelist ++ [(a, b)]) = Graph.from_edgelist edgelist.
Proof.
  intros Hedge. unfold Graph.from_edgelist. rewrite foldl_app. simpl.
  fold (Graph.from_edgelist edgelist).
  assert (adjacent (Graph.from_edgelist edgelist) a b) as Hab
    by (by apply adjacent_from_edgelist).
  assert (adjacent (Graph.from_edgelist edgelist) b a) as Hba
    by (apply adjacent_from_edgelist; unfold edge_of; tauto).
  rewrite (add_node_present _ a b Hab), (add_node_present _ b a Hba).
  by rewrite (set_adj_present _ a b Hab), (set_adj_present _ b a Hba).
Qed.

Lemma X7_repeated_edge_is_absorbed_witness :
  Graph.from_edgelist (triangle ++ [(1, 0)]) = Graph.from_edgelist triangle.
Proof.
  apply (X7_repeated_edge_is_absorbed triangle 1 0).
  right. by vm_compute; repeat constructor.
Defined.

Lemma fresh_ext (seen1 seen2 l : list Z) :
  (∀ x, x ∈ seen1 ↔ x ∈ seen2) → fresh seen1 l = fresh seen2 l.
Proof.
  revert seen1 seen2. induction l as [|y l IH]; intros seen1 seen2 Hext; [done |].
  simpl. destruct (decide (y ∈ seen1)) as [H1|H1].
  - rewrite decide_True by (by apply Hext). by apply IH.
  - rewrite decide_False by (by rewrite <- Hext). f_equal. apply IH.
    intros x. rewrite !elem_of_cons, Hext. done.
Qed.

Lemma nodes_add_node_fresh (G : Graph.t) (u : Z) (rest : list Z) :
  Graph.nodes (Graph.add_node G u) ++ fresh (Graph.nodes (Graph.add_node G u)) rest
  = Graph.nodes G ++ fresh (Graph.nodes G) (u :: rest).
Proof.
  rewrite nodes_add_node. simpl. destruct (decide (u ∈ Graph.nodes G)) as [Hu|Hu].
  - done.
  - rewrite <- (assoc_L (++)). simpl. do 2 f_equal. apply fresh_ext.
    intros x. rewrite elem_of_app, list_elem_of_singleton, elem_of_cons. tauto.
Qed.

Lemma nodes_foldl_fresh (G : Graph.t) (edgelist : list (Z * Z)) :
  Graph.nodes (foldl Graph.add_edge G edgelist)
  = Graph.nodes G ++ fresh (Graph.nodes G) (endpoints edgelist).
Proof.
  revert G. induction edgelist as [|[a b] edgelist IH]; intros G; cbn [foldl].
  - simpl. by rewrite app_nil_r.
  - rewrite IH. unfold Graph.add_edge. rewrite !nodes_set_adj.
    change (endpoints ((a, b) :: edgelist)) with (a :: b :: endpoints edgelist).
    by rewrite nodes_add_node_fresh, nodes_add_node_fresh.
Qed.

(** X8.  [G.nodes()] enumerates the distinct nodes of the edge list in the
    order of their first appearance, reading the rows in order and each
    row from left to right. *)
Theorem X8_nodes_in_order_of_first_appearance (edgelist : list (Z * Z)) :
  Graph.nodes (Graph.from_edgelist edgelist) = first_occurrences (endpoints edgelist).
Proof. unfold Graph.from_edgelist. by rewrite nodes_foldl_fresh. Qed.

(** ** The walk sampler and the corpus builder *)

(** X9.  From a node that is not in the graph, [do_a_walk] raises
    [NetworkXError] as soon as the walk length asks for a second node;
    for a walk length of at most one it returns the source alone, without
    looking the node up and without drawing. *)
Theorem X9_walk_from_unknown_node
    (args : DeepWalker.Args) (rng : nat → nat) (G : Graph.t) (node : Z) (s : nat) :
  (node ∉ Graph.nodes G → 2 ≤ DeepWalker.walk_length args →
   DeepWalker.do_a_walk args rng G node s = Raise NetworkXError)
  ∧ (DeepWalker.walk_length args ≤ 1 →
     DeepWalker.do_a_walk args rng G node s = Ok ([node], s)).
Proof.
  unfold DeepWalker.do_a_walk. split.
  - intros Hnode%lookup_None_nodes Hwl.
    destruct (Z.to_nat (DeepWalker.walk_length args)) as [|fuel] eqn:Hfuel; [lia |].
    cbn [DeepWalker.walk_loop]. simpl length.
    destruct (Z.ltb_spec (Z.of_nat 1) (DeepWalker.walk_length args)); [| lia].
    unfold PyList.last_item, Graph.neighbors. simpl. by rewrite Hnode.
  - intros Hwl.
    destruct (Z.to_nat (DeepWalker.walk_length args)) as [|fuel];
      cbn [DeepWalker.walk_loop]; simpl length;
      by destruct (Z.ltb_spec (Z.of_nat 1) (DeepWalker.walk_length args)); [lia |].
Qed.

Lemma X9_walk_from_unknown_node_witness :
  DeepWalker.do_a_walk demo_args (λ n, n) (Graph.from_edgelist triangle) 9 0%nat
    = Raise NetworkXError
  ∧ DeepWalker.do_a_walk (DeepWalker.MkArgs 1 1 1 0) (λ n, n)
      (Graph.from_edgelist triangle) 9 0%nat = Ok ([9], 0%nat).
Proof.
  split.
  - apply (proj1 (X9_walk_from_unknown_node demo_args (λ n, n)
                    (Graph.from_edgelist triangle) 9 0%nat)).
    + simpl. rewrite !not_elem_of_cons. repeat split; try done. apply not_elem_of_nil.
    + simpl. lia.
  - apply (proj2 (X9_walk_from_unknown_node (DeepWalker.MkArgs 1 1 1 0) (λ n, n)
                    (Graph.from_edgelist triangle) 9 0%nat)).
    simpl. lia.
Defined.

(** Every node the loop appends costs one draw of the generator. *)
Lemma walk_loop_draws (args : DeepWalker.Args) (rng : nat → nat) (G : Graph.t)
    (fuel : nat) (nodes walk : list Z) (s s' : nat) :
  DeepWalker.walk_loop args rng G fuel nodes s = Ok (walk, s') →
  ∃ ext, walk = nodes ++ ext ∧ s' = (s + length ext)%nat.
Proof.
  revert nodes s. induction fuel as [|fuel IH]; intros nodes s;
    cbn [DeepWalker.walk_loop];
    destruct (Z.of_nat (length nodes) <? DeepWalker.walk_length args);
    try done;
    try (intros [= <- <-]; exists []; by rewrite app_nil_r, Nat.add_0_r).
  intros (cur & _ & Hrest)%bind_Ok.
  apply bind_Ok in Hrest as (nebs & _ & Hrest).
  destruct (0 <? length nebs)%nat.
  - apply bind_Ok in Hrest as ([picked s1] & Hpick & Hrest).
    unfold Random.sample1 in Hpick.
    destruct (nebs !! _) as [x|]; [| done]. injection Hpick as <- <-.
    apply IH in Hrest as (ext & -> & ->).
    exists (x :: ext). rewrite <- (assoc_L (++)). simpl. split; [done | lia].
  - injection Hrest as <- <-. exists []. by rewrite app_nil_r, Nat.add_0_r.
Qed.

Lemma do_a_walk_exact (args : DeepWalker.Args) (rng : nat → nat) (G : Graph.t)
    (node : Z) (s : nat) :
  closed G → no_dead_end G → node ∈ Graph.nodes G →
  ∃ walk,
    DeepWalker.do_a_walk args rng G node s = Ok (walk, (s + (length walk - 1))%nat)
    ∧ head walk = Some node
    ∧ Z.of_nat (length walk) = Z.max 1 (DeepWalker.walk_length args).
Proof.
  intros Hclosed Hnd Hnode.
  destruct (do_a_walk_spec args rng G Hclosed node s Hnode)
    as (walk & s' & Hrun & (Hhead & _) & Hfull).
  exists walk. split; [| split; [done | by apply Hfull]].
  rewrite Hrun. do 2 f_equal.
  apply walk_loop_draws in Hrun as (ext & -> & ->). simpl. lia.
Qed.

(** X10.  In the graph of an edge list no walk stops early: from every
    node the walk has exactly [max(1, walk_length)] nodes, and it takes one
    draw from the generator for every node after the source. *)
Theorem X10_walk_has_full_length
    (args : DeepWalker.Args) (rng : nat → nat) (edgelist : list (Z * Z))
    (node : Z) (s : nat) :
  node ∈ endpoints edgelist →
  ∃ walk,
    DeepWalker.do_a_walk args rng (Graph.from_edgelist edgelist) node s
    = Ok (walk, (s + (length walk - 1))%nat)
    ∧ head walk = Some node
    ∧ Z.of_nat (length walk) = Z.max 1 (DeepWalker.walk_length args).
Proof.
  intros Hnode. apply do_a_walk_exact.
  - apply closed_from_edgelist.
  - apply no_dead_end_from_edgelist.
  - by apply nodes_from_edgelist.
Qed.

Lemma X10_walk_has_full_length_witness :
  ∃ walk,
    DeepWalker.do_a_walk (DeepWalker.MkArgs 5 1 1 0) (λ n, n)
      (Graph.from_edgelist tailed_triangle) 3 7%nat
    = Ok (walk, (7 + (length walk - 1))%nat)
    ∧ head walk = Some 3
    ∧ Z.of_nat (length walk) = 5.
Proof.
  apply (X10_walk_has_full_length (DeepWalker.MkArgs 5 1 1 0) (λ n, n)
           tailed_triangle 3 7%nat).
  by vm_compute; repeat constructor.
Defined.

Lemma range_length (lo hi : Z) : length (PyList.range lo hi) = Z.to_nat (hi - lo).
Proof. unfold PyList.range. by rewrite length_fmap, length_seq. Qed.

Section CorpusLayout.

Variable args : DeepWalker.Args.
Variable rng : nat → nat.
Variable G : Graph.t.
Hypothesis G_closed : closed G.
Hypothesis G_no_dead_end : no_dead_end G.

(** One pass over a list of nodes of the graph. *)
Lemma do_walks_pass (sources : list Z) (walks0 : list (list Z)) (s0 : nat) :
  Forall (λ n, n ∈ Graph.nodes G) sources →
  ∃ new s1,
    PyList.for_each
      (λ node '(walks, s),
         '(walk, s') ← DeepWalker.do_a_walk args rng G node s;
         Ok (walks ++ [walk], s'))
      sources (walks0, s0) = Ok (walks0 ++ new, s1)
    ∧ head <$> new = Some <$> sources
    ∧ Forall (λ walk, Z.of_nat (length walk)
                      = Z.max 1 (DeepWalker.walk_length args)) new
    ∧ Z.of_nat s1 = Z.of_nat s0
        + Z.of_nat (length new) * (Z.max 1 (DeepWalker.walk_length args) - 1).
Proof.
  revert walks0 s0. induction sources as [|node sources IH]; intros walks0 s0 Hall.
  - exists [], s0. simpl. rewrite app_nil_r. split; [done |]. split; [done |].
    split; [constructor | lia].
  - apply Forall_cons in Hall as [Hnode Hall]. simpl.
    destruct (do_a_walk_exact args rng G node s0 G_closed G_no_dead_end Hnode)
      as (walk & -> & Hhead & Hlen).
    simpl.
    destruct (IH (walks0 ++ [walk]) (s0 + (length walk - 1))%nat Hall)
      as (new & s1 & -> & Hheads & Hlens & Hdraws).
    exists (walk :: new), s1. rewrite <- (assoc_L (++)).
    split; [done |]. split; [by rewrite !fmap_cons, Hhead, Hheads |].
    split; [by constructor |]. cbn [length]. lia.
Qed.

(** Any number of passes over the nodes of the graph. *)
Lemma do_walks_passes (indices : list Z) (walks0 : list (list Z)) (s0 : nat) :
  ∃ new s1,
    PyList.for_each
      (λ (_ : Z) st,
         PyList.for_each
           (λ node '(walks, s),
              '(walk, s') ← DeepWalker.do_a_walk args rng G node s;
              Ok (walks ++ [walk], s'))
           (Graph.nodes G) st)
      indices (walks0, s0) = Ok (walks0 ++ new, s1)
    ∧ head <$> new = Some <$> concat (replicate (length indices) (Graph.nodes G))
    ∧ Forall (λ walk, Z.of_nat (length walk)
                      = Z.max 1 (DeepWalker.walk_length args)) new
    ∧ Z.of_nat s1 = Z.of_nat s0
        + Z.of_nat (length new) * (Z.max 1 (DeepWalker.walk_length args) - 1).
Proof.
  revert walks0 s0. induction indices as [|i indices IH]; intros walks0 s0.
  - exists [], s0. simpl. rewrite app_nil_r. split; [done |]. split; [done |].
    split; [constructor | lia].
  - simpl.
    destruct (do_walks_pass (Graph.nodes G) walks0 s0)
      as (new1 & s1 & -> & Hheads1 & Hlens1 & Hdraws1).
    { by apply Forall_forall. }
    simpl.
    destruct (IH (walks0 ++ new1) s1) as (new2 & s2 & -> & Hheads2 & Hlens2 & Hdraws2).
    exists (new1 ++ new2), s2. rewrite <- (assoc_L (++)).
    split; [done |]. split; [by rewrite !fmap_app, Hheads1, Hheads2 |].
    split; [by apply Forall_app |].
    rewrite length_app. lia.
Qed.

End CorpusLayout.

Lemma do_walks_layout
    (args : DeepWalker.Args) (rng : nat → nat) (edgelist : list (Z * Z)) (s : nat) :
  ∃ walks s',
    DeepWalker.do_walks args rng (Graph.from_edgelist edgelist) s = Ok (walks, s')
    ∧ head <$> walks
      = Some <$> concat (replicate (Z.to_nat (DeepWalker.number_of_walks args))
                           (Graph.nodes (Graph.from_edgelist edgelist)))
    ∧ length walks
      = (Z.to_nat (DeepWalker.number_of_walks args) * node_count edgelist)%nat
    ∧ Forall (λ walk, Z.of_nat (length walk)
                      = Z.max 1 (DeepWalker.walk_length args)) walks
    ∧ Z.of_nat s' = Z.of_nat s
        + Z.of_nat (length walks) * (Z.max 1 (DeepWalker.walk_length args) - 1).
Proof.
  unfold DeepWalker.do_walks.
  destruct (do_walks_passes args rng _ (closed_from_edgelist edgelist)
              (no_dead_end_from_edgelist edgelist)
              (PyList.range 0 (DeepWalker.number_of_walks args)) [] s)
    as (walks & s' & Hrun & Hheads & Hlens & Hdraws).
  rewrite range_length, Z.sub_0_r in Hheads.
  exists walks, s'. split; [done |]. split; [done |]. split; [| done].
  apply (f_equal length) in Hheads. rewrite !length_fmap in Hheads.
  rewrite Hheads, <- length_nodes_from_edgelist.
  generalize (Z.to_nat (DeepWalker.number_of_walks args)) as n.
  induction n as [|n IH]; simpl; [done |]. rewrite length_app, IH. lia.
Qed.

(** X11.  On the graph of an edge list [do_walks] always returns.  The
    corpus holds one walk per node and repetition, [number_of_walks]
    passes over the nodes in the order of [G.nodes()], each walk starting
    at its node and having exactly [max(1, walk_length)] nodes; the
    generator is drawn from once for every node after a source. *)
Theorem X11_corpus_layout
    (args : DeepWalker.Args) (rng : nat → nat) (edgelist : list (Z * Z)) (s : nat) :
  ∃ walks s',
    DeepWalker.do_walks args rng (Graph.from_edgelist edgelist) s = Ok (walks, s')
    ∧ head <$> walks
      = Some <$> concat (replicate (Z.to_nat (DeepWalker.number_of_walks args))
                           (Graph.nodes (Graph.from_edgelist edgelist)))
    ∧ length walks
      = (Z.to_nat (DeepWalker.number_of_walks args) * node_count edgelist)%nat
    ∧ Forall (λ walk, Z.of_nat (length walk)
                      = Z.max 1 (DeepWalker.walk_length args)) walks
    ∧ Z.of_nat s' = Z.of_nat s
        + Z.of_nat (length walks) * (Z.max 1 (DeepWalker.walk_length args) - 1).
Proof. apply do_walks_layout. Qed.

(** ** The aggregator and pruner *)

(** X12.  Pruning twice is pruning once at the larger threshold; pruning
    is idempotent. *)
Theorem X12_prune_composes (t1 t2 : Z) (c : gmap (Z * Z) Z) :
  DeepWalker.prune t2 (DeepWalker.prune t1 c) = DeepWalker.prune (Z.max t1 t2) c
  ∧ DeepWalker.prune t1 (DeepWalker.prune t1 c) = DeepWalker.prune t1 c.
Proof.
  assert (∀ a b, DeepWalker.prune b (DeepWalker.prune a c)
                 = DeepWalker.prune (Z.max a b) c) as Hcomp.
  { intros a b. apply map_eq. intros k. rewrite !prune_lookup.
    destruct (c !! k) as [v|]; [| done].
    repeat case_decide; try done; lia. }
  split; [apply Hcomp |]. by rewrite Hcomp, Z.max_id.
Qed.

Lemma total_count_insert (c : gmap (Z * Z) Z) (k : Z * Z) (v : Z) :
  total_count (<[k := v]> c) = total_count c - default 0 (c !! k) + v.
Proof.
  unfold total_count. destruct (c !! k) as [x|] eqn:Hk; simpl.
  - rewrite <- insert_delete_eq.
    rewrite map_fold_insert_L; [| intros; lia | apply lookup_delete_eq].
    rewrite (map_fold_delete_L _ _ k x c); [lia | intros; lia | done].
  - rewrite map_fold_insert_L; [lia | intros; lia | done].
Qed.

Lemma total_count_foldl (c : gmap (Z * Z) Z) (l : list (Z * Z)) :
  total_count (foldl DeepWalker.count_one c l) = total_count c + Z.of_nat (length l).
Proof.
  revert c. induction l as [|k l IH]; intros c; simpl; [lia |].
  rewrite IH. unfold DeepWalker.count_one. rewrite total_count_insert. lia.
Qed.

(** X13.  The counts of a counter add up to the length of the stream it
    was built from: no pair is lost or counted twice. *)
Theorem X13_counter_total (stream : list (Z * Z)) :
  total_count (DeepWalker.Counter stream) = Z.of_nat (length stream).
Proof.
  unfold DeepWalker.Counter. rewrite total_count_foldl.
  unfold total_count. by rewrite map_fold_empty.
Qed.

Lemma occurrences_Permutation (k : Z * Z) (l1 l2 : list (Z * Z)) :
  l1 ≡ₚ l2 → occurrences k l1 = occurrences k l2.
Proof. intros Hp. unfold occurrences. by rewrite Hp. Qed.

Lemma Counter_Permutation (l1 l2 : list (Z * Z)) :
  l1 ≡ₚ l2 → DeepWalker.Counter l1 = DeepWalker.Counter l2.
Proof.
  intros Hp. apply map_eq. intros k.
  by rewrite !Counter_lookup, (occurrences_Permutation k l1 l2 Hp).
Qed.

Lemma concat_Permutation {A : Type} (ls1 ls2 : list (list A)) :
  ls1 ≡ₚ ls2 → concat ls1 ≡ₚ concat ls2.
Proof.
  induction 1 as [|l ls1 ls2 _ IH|l1 l2 ls|ls1 ls2 ls3 _ IH1 _ IH2]; simpl.
  - done.
  - by rewrite IH.
  - rewrite !(assoc_L (++)). f_equiv. apply Permutation_app_comm.
  - by etrans.
Qed.

Section OrderFacts.

Variable args : DeepWalker.Args.

(** The result of the extractor on a processable walk. *)
Lemma processor_processable (walk : list Z) :
  processable (DeepWalker.window_size args) walk →
  ∃ pairs, DeepWalker.processor args walk = Ok pairs.
Proof.
  intros Hp. by apply processor_Ok_iff.
Qed.

Lemma pair_lists_acc_cases (walks : list (list Z)) (acc : list (list (Z * Z))) :
  (Forall (processable (DeepWalker.window_size args)) walks
   ∧ ∃ lists,
       PyList.for_each
         (λ walk container,
            pairs ← DeepWalker.processor args walk; Ok (container ++ [pairs]))
         walks acc = Ok lists)
  ∨ (¬ Forall (processable (DeepWalker.window_size args)) walks
     ∧ PyList.for_each
         (λ walk container,
            pairs ← DeepWalker.processor args walk; Ok (container ++ [pairs]))
         walks acc = Raise IndexError).
Proof.
  revert acc. induction walks as [|walk walks IH]; intros acc.
  - left. split; [constructor | by eexists].
  - cbn [PyList.for_each].
    destruct (DeepWalker.processor args walk) as [pairs|e] eqn:Hrun; simpl.
    + assert (processable (DeepWalker.window_size args) walk) as Hp.
      { apply processor_Ok_iff. by eexists. }
      destruct (IH (acc ++ [pairs])) as [[Hall Hok]|[Hnot Hfail]].
      * left. split; [by constructor | done].
      * right. split; [| done]. by intros [_ ?]%Forall_cons.
    + right. apply processor_Raise_IndexError in Hrun as (-> & Hlen & Hws).
      split; [| done]. intros [[?|?] _]%Forall_cons; lia.
Qed.

(** The aggregation loop returns on a corpus of processable walks and
    raises [IndexError] on any other corpus. *)
Lemma pair_lists_cases (walks : list (list Z)) :
  (Forall (processable (DeepWalker.window_size args)) walks
   ∧ ∃ lists, DeepWalker.pair_lists args walks = Ok lists)
  ∨ (¬ Forall (processable (DeepWalker.window_size args)) walks
     ∧ DeepWalker.pair_lists args walks = Raise IndexError).
Proof. apply pair_lists_acc_cases. Qed.

Lemma pair_lists_Permutation (walks1 walks2 : list (list Z))
    (lists1 : list (list (Z * Z))) :
  walks1 ≡ₚ walks2 →
  DeepWalker.pair_lists args walks1 = Ok lists1 →
  ∃ lists2, DeepWalker.pair_lists args walks2 = Ok lists2 ∧ lists1 ≡ₚ lists2.
Proof.
  intros Hp. rewrite pair_lists_Ok. intros Hall. revert lists1 Hall.
  induction Hp as [|walk walks1 walks2 _ IH|w1 w2 walks|walks1 walks2 walks3 _ IH1 _ IH2];
    intros lists1 Hall.
  - apply Forall2_nil_inv_l in Hall as ->. exists []. by rewrite pair_lists_Ok.
  - apply Forall2_cons_inv_l in Hall as (pairs & lists & Hp1 & Hall & ->).
    destruct (IH lists Hall) as (lists2 & Hl2%pair_lists_Ok & Hperm).
    exists (pairs :: lists2). rewrite pair_lists_Ok.
    split; [by constructor | by constructor].
  - apply Forall2_cons_inv_l in Hall as (p2 & lists & Hp2 & Hall & ->).
    apply Forall2_cons_inv_l in Hall as (p1 & lists' & Hp1 & Hall & ->).
    exists (p1 :: p2 :: lists'). rewrite pair_lists_Ok.
    split; [by repeat constructor | by constructor].
  - destruct (IH1 lists1) as (lists2 & Hl2 & Hperm12); [done |].
    apply pair_lists_Ok in Hl2.
    destruct (IH2 lists2 Hl2) as (lists3 & Hl3 & Hperm23).
    exists lists3. split; [done | by etrans].
Qed.

End OrderFacts.

(** X14.  The result of [do_processing] does not depend on the order of
    the walks in the corpus: the matrix, or the exception, is the same for
    every rearrangement of [self.walks]. *)
Theorem X14_processing_ignores_walk_order
    (args : DeepWalker.Args) (shape : Z * Z) (walks1 walks2 : list (list Z)) :
  walks1 ≡ₚ walks2 →
  DeepWalker.do_processing args shape walks1
  = DeepWalker.do_processing args shape walks2.
Proof.
  intros Hp. unfold DeepWalker.do_processing.
  destruct (pair_lists_cases args walks1) as [[Hall1 [lists1 Hl1]]|[Hnot1 Hf1]].
  - destruct (pair_lists_Permutation args walks1 walks2 lists1 Hp Hl1)
      as (lists2 & Hl2 & Hperm).
    rewrite Hl1, Hl2. simpl. unfold DeepWalker.container_of.
    by rewrite (Counter_Permutation _ _ (concat_Permutation _ _ Hperm)).
  - destruct (pair_lists_cases args walks2) as [[Hall2 _]|[_ Hf2]].
    + exfalso. apply Hnot1. by rewrite Hp.
    + by rewrite Hf1, Hf2.
Qed.

Lemma X14_processing_ignores_walk_order_witness :
  DeepWalker.do_processing demo_args (3, 3) [[0; 1; 2]; [1; 0; 2]; [2; 1; 2]]
  = DeepWalker.do_processing demo_args (3, 3) [[2; 1; 2]; [0; 1; 2]; [1; 0; 2]].
Proof.
  apply (X14_processing_ignores_walk_order demo_args (3, 3)).
  change [[2; 1; 2]; [0; 1; 2]; [1; 0; 2]]
    with ([[2; 1; 2]] ++ [[0; 1; 2]; [1; 0; 2]]).
  change [[0; 1; 2]; [1; 0; 2]; [2; 1; 2]]
    with ([[0; 1; 2]; [1; 0; 2]] ++ [[2; 1; 2]]).
  apply Permutation_app_comm.
Defined.

(** ** The matrix assembler and the constructor *)

Lemma occurrences_le_length (k : Z * Z) (l : list (Z * Z)) :
  (occurrences k l ≤ length l)%nat.
Proof. unfold occurrences. apply length_filter. Qed.

(** X15.  A threshold that no count exceeds prunes everything, and
    [do_processing] then returns the empty matrix of the given shape when
    the shape is not negative, and raises [ValueError] when it is; this
    needs nothing of the node ids, which are never looked at. *)
Theorem X15_overpruning_gives_empty_matrix
    (args : DeepWalker.Args) (shape : Z * Z) (walks : list (list Z))
    (lists : list (list (Z * Z))) :
  DeepWalker.pair_lists args walks = Ok lists →
  (∀ k, Z.of_nat (occurrences k (concat lists)) ≤ DeepWalker.pruning_threshold args) →
  (0 ≤ shape.1 ∧ 0 ≤ shape.2 →
   DeepWalker.do_processing args shape walks = Ok (Sparse.Csr shape ∅)
   ∧ Sparse.nnz (Sparse.Csr shape (∅ : gmap (Z * Z) Z)) = 0%nat)
  ∧ (shape.1 < 0 ∨ shape.2 < 0 →
     DeepWalker.do_processing args shape walks = Raise ValueError).
Proof.
  intros Hlists Hlow.
  assert (DeepWalker.container_of args lists = ∅) as Hempty.
  { apply map_empty. intros k. apply eq_None_not_Some. intros [v Hv].
    apply container_of_lookup in Hv as (_ & -> & Hv). specialize (Hlow k). lia. }
  unfold DeepWalker.do_processing. rewrite Hlists. simpl.
  rewrite Hempty, map_to_list_empty. simpl. unfold Sparse.coo_matrix.
  destruct (Z.ltb_spec shape.1 0), (Z.ltb_spec shape.2 0); simpl;
    (split; [intros [? ?]; try lia; by split | intros [?|?]; try lia; done]).
Qed.

Lemma X15_overpruning_gives_empty_matrix_witness :
  DeepWalker.do_processing (DeepWalker.MkArgs 3 1 1 4) (2, 2) [[50; 70; 50]]
  = Ok (Sparse.Csr (2, 2) ∅)
  ∧ DeepWalker.do_processing (DeepWalker.MkArgs 3 1 1 4) (-1, 3) [[50; 70; 50]]
    = Raise ValueError.
Proof.
  assert (∀ k, Z.of_nat (occurrences k
                 (concat [[(50, 70); (70, 50); (70, 50); (50, 70)]])) ≤ 4) as Hlow.
  { intros k. etrans; [apply inj_le, occurrences_le_length |]. simpl. lia. }
  split.
  - apply (X15_overpruning_gives_empty_matrix (DeepWalker.MkArgs 3 1 1 4) (2, 2)
             [[50; 70; 50]] [[(50, 70); (70, 50); (70, 50); (50, 70)]]
             eq_refl Hlow).
    simpl. lia.
  - apply (X15_overpruning_gives_empty_matrix (DeepWalker.MkArgs 3 1 1 4) (-1, 3)
             [[50; 70; 50]] [[(50, 70); (70, 50); (70, 50); (50, 70)]]
             eq_refl Hlow).
    simpl. lia.
Defined.

Lemma of_int_small (n : Z) : Z.abs n < 2 ^ 24 → Float32.of_int n = n.
Proof.
  intros H. unfold Float32.of_int, Float32.round_to.
  destruct (Z.ltb_spec (Z.abs n) (2 ^ 53)); [| lia].
  by destruct (Z.ltb_spec (Z.abs n) (2 ^ 24)); [| lia].
Qed.

(** X16.  Below [2^24] the float cast loses nothing: the entry read at a
    coordinate is the number of occurrences of that pair in the corpus
    when this exceeds the threshold, and zero otherwise. *)
Theorem X16_entries_are_exact_counts
    (args : DeepWalker.Args) (shape : Z * Z) (walks : list (list Z))
    (A : Sparse.csr Z) (lists : list (list (Z * Z))) (i j : Z) :
  DeepWalker.do_processing args shape walks = Ok A →
  DeepWalker.pair_lists args walks = Ok lists →
  Z.of_nat (occurrences (i, j) (concat lists)) < 2 ^ 24 →
  Sparse.get A i j
  = if decide (DeepWalker.pruning_threshold args
               < Z.of_nat (occurrences (i, j) (concat lists)))
    then Z.of_nat (occurrences (i, j) (concat lists))
    else 0.
Proof.
  intros HA Hlists Hsmall.
  apply do_processing_Ok_inv in HA as (lists' & Hl & _ & Hstored & _).
  rewrite Hlists in Hl. injection Hl as <-.
  unfold Sparse.get. rewrite Hstored. unfold DeepWalker.container_of.
  rewrite prune_lookup, Counter_lookup.
  destruct (decide (occurrences (i, j) (concat lists) = 0%nat)) as [Hz|Hz].
  - rewrite Hz. simpl. by case_decide.
  - case_decide; simpl; [| done]. apply of_int_small. lia.
Qed.

Lemma X16_entries_are_exact_counts_witness :
  Sparse.get
    (Sparse.Csr (3, 3) (list_to_map [((0, 1), 2); ((1, 0), 2)])) 0 1 = 2.
Proof.
  assert (DeepWalker.do_processing (DeepWalker.MkArgs 3 1 1 1) (3, 3) [[0; 1; 0]]
          = Ok (Sparse.Csr (3, 3) (list_to_map [((0, 1), 2); ((1, 0), 2)]))) as HA
    by (by vm_compute).
  rewrite (X16_entries_are_exact_counts (DeepWalker.MkArgs 3 1 1 1) (3, 3)
             [[0; 1; 0]] _ [[(0, 1); (1, 0); (1, 0); (0, 1)]] 0 1 HA eq_refl).
  - reflexivity.
  - by vm_compute.
Defined.

Lemma max_Raise (l : list Z) (e : exn) : PyList.max l = Raise e → e = ValueError.
Proof. destruct l; simpl; congruence. Qed.

Lemma min_Raise (l : list Z) (e : exn) : PyList.min l = Raise e → e = ValueError.
Proof. destruct l; simpl; congruence. Qed.

(** The constructor of the triplet form raises nothing but [ValueError]. *)
Lemma coo_matrix_Raise {V : Type} (data : list V) (row col : list Z) (shape : Z * Z)
    (e : exn) :
  Sparse.coo_matrix data row col shape = Raise e → e = ValueError.
Proof.
  unfold Sparse.coo_matrix.
  destruct (_ || _); [congruence |].
  destruct (negb _); [congruence |].
  destruct (0 <? length data)%nat; [| done].
  destruct (PyList.max row) eqn:H1; simpl; [| by intros [= <-]; eapply max_Raise].
  destruct (PyList.max col) eqn:H2; simpl; [| by intros [= <-]; eapply max_Raise].
  destruct (PyList.min row) eqn:H3; simpl; [| by intros [= <-]; eapply min_Raise].
  destruct (PyList.min col) eqn:H4; simpl; [| by intros [= <-]; eapply min_Raise].
  repeat (destruct (_ : bool); [congruence |]). done.
Qed.

Section ConstructorFacts.

Variable args : DeepWalker.Args.
Variable rng : nat → nat.
Variable edgelist : list (Z * Z).

(** Every surviving pair is made of nodes of the edge list. *)
Lemma container_keys_are_nodes (walks : list (list Z)) (lists : list (list (Z * Z)))
    (i j : Z) :
  Forall (corpus_walk args (Graph.from_edgelist edgelist)) walks →
  DeepWalker.pair_lists args walks = Ok lists →
  is_Some (DeepWalker.container_of args lists !! (i, j)) →
  i ∈ endpoints edgelist ∧ j ∈ endpoints edgelist.
Proof.
  intros Hwalks Hlists [v Hv].
  apply container_of_lookup in Hv as (Hin & _).
  destruct (pair_lists_elements args walks lists (i, j) Hlists Hin)
    as (walk & Hwalk & Hi & Hj).
  rewrite Forall_forall in Hwalks.
  destruct (Hwalks walk Hwalk) as [(source & _ & _ & _ & _ & Hnodes) _].
  rewrite Forall_forall in Hnodes.
  split; apply nodes_from_edgelist, Hnodes; done.
Qed.

Lemma node_count_zero : node_count edgelist = 0%nat ↔ edgelist = [].
Proof.
  unfold node_count. split.
  - destruct edgelist as [|[a b] rest]; [done |]. intros Hz.
    apply length_zero_iff_nil in Hz.
    assert (a ∈ remove_dups (endpoints ((a, b) :: rest))) as Hin
      by (apply elem_of_remove_dups; by left).
    rewrite Hz in Hin. by apply elem_of_nil in Hin.
  - by intros ->.
Qed.

(** X17.  The constructor fails in two ways only.  It raises
    [IndexError] exactly when the edge list is not empty, at least one
    walk per node is asked for, and the window is wider than a walk of
    two or more nodes; any other failure is the [ValueError] of the matrix
    constructor, and occurs only for node ids that are not [0 .. N-1]. *)
Theorem X17_constructor_failures :
  (DeepWalker.init args rng edgelist = Raise IndexError
   ↔ edgelist ≠ [] ∧ 1 ≤ DeepWalker.number_of_walks args
     ∧ 2 ≤ DeepWalker.walk_length args
     ∧ DeepWalker.walk_length args < DeepWalker.window_size args)
  ∧ (∀ e, DeepWalker.init args rng edgelist = Raise e →
          e = IndexError ∨ (e = ValueError ∧ ¬ dense_labels edgelist)).
Proof.
  destruct (do_walks_layout args rng edgelist 0%nat)
    as (walks & s' & Hrun & _ & Hcount & Hlens & _).
  destruct (do_walks_spec args rng _ (closed_from_edgelist edgelist) 0%nat)
    as (walks' & s'' & Hrun' & Hwalks).
  rewrite Hrun in Hrun'. injection Hrun' as <- <-.
  unfold DeepWalker.init. rewrite Hrun. simpl.
  rewrite Forall_forall in Hlens.
  unfold DeepWalker.do_processing.
  destruct (pair_lists_cases args walks) as [[Hall [lists Hlists]]|[Hnot Hfail]].
  - rewrite Hlists. simpl.
    assert (¬ (edgelist ≠ [] ∧ 1 ≤ DeepWalker.number_of_walks args
               ∧ 2 ≤ DeepWalker.walk_length args
               ∧ DeepWalker.walk_length args < DeepWalker.window_size args)) as Hno.
    { intros (Hne & Hnw & Hwl & Hws).
      destruct walks as [|walk walks].
      - simpl in Hcount. rewrite <- node_count_zero in Hne. nia.
      - apply Forall_cons in Hall as [[?|?] _];
          specialize (Hlens walk ltac:(by left)); lia. }
    destruct (Sparse.coo_matrix _ _ _ _) as [C|e] eqn:HC; simpl.
    + split; [split; [done | by intros ?] | done].
    + apply coo_matrix_Raise in HC as HV. subst e.
      split; [split; [done | by intros ?] |].
      intros e [= <-]. right. split; [done |]. intros Hdense.
      rewrite coo_matrix_Ok in HC;
        [done | simpl; lia | simpl; lia | by rewrite !length_fmap.. | |].
      * intros r ([[i j] v] & -> & Hv%elem_of_map_to_list)%list_elem_of_fmap.
        destruct (container_keys_are_nodes walks lists i j Hwalks Hlists) as [Hi _];
          [by eexists |].
        unfold dense_labels in Hdense. rewrite Forall_forall in Hdense.
        rewrite length_nodes_from_edgelist. simpl. by apply Hdense.
      * intros c ([[i j] v] & -> & Hv%elem_of_map_to_list)%list_elem_of_fmap.
        destruct (container_keys_are_nodes walks lists i j Hwalks Hlists) as [_ Hj];
          [by eexists |].
        unfold dense_labels in Hdense. rewrite Forall_forall in Hdense.
        rewrite length_nodes_from_edgelist. simpl. by apply Hdense.
  - rewrite Hfail. simpl. split; [| intros e [= <-]; by left].
    split; [intros _ | done].
    destruct walks as [|walk walks]; [exfalso; apply Hnot; constructor |].
    assert (edgelist ≠ [] ∧ 1 ≤ DeepWalker.number_of_walks args) as [Hne Hnw].
    { simpl in Hcount. split.
      - intros He. apply node_count_zero in He. lia.
      - lia. }
    split; [done |]. split; [done |].
    destruct (Z.le_gt_cases (DeepWalker.walk_length args) 1) as [Hone|Hmany].
    + exfalso. apply Hnot. apply Forall_forall. intros w Hw. right.
      specialize (Hlens w Hw). lia.
    + destruct (Z.le_gt_cases (DeepWalker.window_size args)
                  (DeepWalker.walk_length args)) as [Hin|Hout]; [| lia].
      exfalso. apply Hnot. apply Forall_forall. intros w Hw. left.
      specialize (Hlens w Hw). lia.
Qed.

(** X18.  Every coordinate the matrix stores is a pair of nodes of the
    edge list, and lies inside the shape. *)
Theorem X18_stored_coordinates_are_nodes (d : DeepWalker.t) (i j : Z) :
  DeepWalker.init args rng edgelist = Ok d →
  is_Some (Sparse.stored (DeepWalker.A d) i j) →
  i ∈ endpoints edgelist ∧ j ∈ endpoints edgelist
  ∧ 0 ≤ i < Z.of_nat (node_count edgelist)
  ∧ 0 ≤ j < Z.of_nat (node_count edgelist).
Proof.
  intros (_ & Hshape & Hwalks & Hproc)%init_Ok_inv Hstored.
  apply do_processing_Ok_inv in Hproc as (lists & Hlists & _ & Hdata & Hbounds).
  rewrite Hdata, fmap_is_Some in Hstored.
  destruct (container_keys_are_nodes _ lists i j Hwalks Hlists Hstored) as [Hi Hj].
  specialize (Hbounds i j Hstored). rewrite Hshape in Hbounds. simpl in Hbounds.
  tauto.
Qed.

End ConstructorFacts.

Lemma X17_constructor_failures_witness :
  DeepWalker.init (DeepWalker.MkArgs 2 1 3 0) (λ _, 0%nat) [(0, 1)] = Raise IndexError.
Proof.
  apply (proj1 (X17_constructor_failures (DeepWalker.MkArgs 2 1 3 0) (λ _, 0%nat)
                  [(0, 1)])).
  simpl. repeat split; try done; lia.
Defined.

Lemma X18_stored_coordinates_are_nodes_witness :
  ∃ d, DeepWalker.init demo_args (λ n, n) triangle = Ok d
       ∧ 1 ∈ endpoints triangle ∧ 0 ≤ 2 < Z.of_nat (node_count triangle).
Proof.
  eexists. split; [by vm_compute |].
  refine (let H := X18_stored_coordinates_are_nodes demo_args (λ n, n) triangle
                     _ 1 2 eq_refl _ in
          conj (proj1 H) (proj2 (proj2 (proj2 H)))).
  vm_compute. by eexists.
Defined.

(** ** [read_matrix] *)

Lemma remove_dups_length_le {A : Type} `{EqDecision A} (l : list A) :
  (length (remove_dups l) ≤ length l)%nat.
Proof.
  induction l as [|x l IH]; simpl; [done |]. case_decide; simpl; lia.
Qed.

Lemma remove_dups_NoDup_id {A : Type} `{EqDecision A} (l : list A) :
  NoDup l → remove_dups l = l.
Proof.
  induction 1 as [|x l Hx _ IH]; simpl; [done |].
  destruct (decide_rel elem_of x l); [done |]. by rewrite IH.
Qed.

Lemma read_matrix_Ok_inv (dataset : list (Z * Z * Z)) (A : Sparse.csr Z) :
  ReadMatrix.read_matrix (ReadMatrix.IntRows dataset) = Ok A →
  dataset ≠ []
  ∧ Forall (λ x, 0 ≤ x.1.1 ∧ 0 ≤ x.1.2) dataset
  ∧ ∀ i j, Sparse.stored A i j
           = combine Float32.add (Float32.of_int <$> values_at (i, j) dataset).
Proof.
  unfold ReadMatrix.read_matrix, ReadMatrix.read_int_rows.
  intros (m1 & Hm1 & H)%bind_Ok. apply bind_Ok in H as (m2 & Hm2 & H).
  apply bind_Ok in H as (C & HC & [= <-]).
  apply coo_matrix_Ok_inv in HC as (-> & _ & _ & Hrow & Hcol).
  split; [by intros -> |]. split.
  - apply Forall_forall. intros x Hx. split.
    + apply (Hrow x.1.1). apply list_elem_of_fmap. by exists x.
    + apply (Hcol x.1.2). apply list_elem_of_fmap. by exists x.
  - intros i j. rewrite csr_matrix_stored. simpl.
    by rewrite zip_items, values_at_fmap.
Qed.

Lemma read_matrix_Ok (dataset : list (Z * Z * Z)) :
  dataset ≠ [] →
  Forall (λ x, 0 ≤ x.1.1 ∧ 0 ≤ x.1.2) dataset →
  ∃ A, ReadMatrix.read_matrix (ReadMatrix.IntRows dataset) = Ok A.
Proof.
  intros Hne Hpos. unfold ReadMatrix.read_matrix, ReadMatrix.read_int_rows.
  destruct (max_nonempty ((λ x, x.1.1) <$> dataset)) as [m1 Hm1];
    [by destruct dataset |].
  destruct (max_nonempty ((λ x, x.1.2) <$> dataset)) as [m2 Hm2];
    [by destruct dataset |].
  rewrite Hm1, Hm2. simpl.
  apply max_spec in Hm1 as [Hin1 Hm1]. apply max_spec in Hm2 as [Hin2 Hm2].
  rewrite Forall_forall in Hpos.
  apply list_elem_of_fmap in Hin1 as (x1 & Hx1 & Hin1).
  apply list_elem_of_fmap in Hin2 as (x2 & Hx2 & Hin2).
  pose proof (Hpos x1 Hin1) as [Hx1pos _]. pose proof (Hpos x2 Hin2) as [_ Hx2pos].
  rewrite coo_matrix_Ok;
    [by eexists | simpl; lia | simpl; lia | by rewrite !length_fmap.. | |].
  - intros r Hr. simpl. split; [| specialize (Hm1 r Hr); lia].
    apply list_elem_of_fmap in Hr as (x & -> & Hx). by apply Hpos.
  - intros c Hc. simpl. split; [| specialize (Hm2 c Hc); lia].
    apply list_elem_of_fmap in Hc as (x & -> & Hx). by apply Hpos.
Qed.

Lemma read_matrix_Raise (dataset : list (Z * Z * Z)) (e : exn) :
  ReadMatrix.read_matrix (ReadMatrix.IntRows dataset) = Raise e → e = ValueError.
Proof.
  unfold ReadMatrix.read_matrix, ReadMatrix.read_int_rows.
  destruct (PyList.max ((λ x, x.1.1) <$> dataset)) eqn:H1; simpl;
    [| by intros [= <-]; eapply max_Raise].
  destruct (PyList.max ((λ x, x.1.2) <$> dataset)) eqn:H2; simpl;
    [| by intros [= <-]; eapply max_Raise].
  destruct (Sparse.coo_matrix _ _ _ _) eqn:HC; simpl; [done |].
  intros [= <-]. by eapply coo_matrix_Raise.
Qed.

(** X19.  On rows of integers, [read_matrix] returns a matrix exactly for
    the datasets that have a row and no negative id; on every other such
    dataset it raises [ValueError], and nothing else.  On rows of floats
    (a file with a column that is not an integer column) it returns for
    no dataset: it raises [ValueError] when there is no row and
    [TypeError] when there is one. *)
Theorem X19_read_matrix_fails_iff :
  (∀ rows, (∃ A, ReadMatrix.read_matrix (ReadMatrix.IntRows rows) = Ok A)
           ↔ rows ≠ [] ∧ Forall (λ x, 0 ≤ x.1.1 ∧ 0 ≤ x.1.2) rows)
  ∧ (∀ rows e, ReadMatrix.read_matrix (ReadMatrix.IntRows rows) = Raise e →
               e = ValueError)
  ∧ ReadMatrix.read_matrix (ReadMatrix.FloatRows []) = Raise ValueError
  ∧ (∀ row rows,
       ReadMatrix.read_matrix (ReadMatrix.FloatRows (row :: rows)) = Raise TypeError)
  ∧ (∀ dataset e, ReadMatrix.read_matrix dataset = Raise e →
                  e = ValueError ∨ e = TypeError).
Proof.
  split; [| split; [apply read_matrix_Raise | split; [done | split; [done |]]]].
  - intros rows. split.
    + intros [A (? & ? & _)%read_matrix_Ok_inv]. done.
    + intros [? ?]. by apply read_matrix_Ok.
  - intros [rows|[|row rows]] e.
    + intros ->%read_matrix_Raise. by left.
    + intros [= <-]. by left.
    + intros [= <-]. by right.
Qed.

(** The coordinates a matrix stores are the coordinates of the rows. *)
Lemma read_matrix_dom (dataset : list (Z * Z * Z)) (A : Sparse.csr Z) :
  ReadMatrix.read_matrix (ReadMatrix.IntRows dataset) = Ok A →
  dom (Sparse.csr_data A) = list_to_set (C := gset (Z * Z)) dataset.*1.
Proof.
  intros (_ & _ & Hstored)%read_matrix_Ok_inv.
  apply set_eq. intros [i j].
  rewrite elem_of_dom, elem_of_list_to_set, list_elem_of_fmap.
  change (Sparse.csr_data A !! (i, j)) with (Sparse.stored A i j).
  rewrite Hstored, combine_is_Some.
  rewrite <- (length_zero_iff_nil (Float32.of_int <$> _)), length_fmap,
    length_zero_iff_nil.
  rewrite values_at_nonempty_iff. split.
  - intros [v Hv]. by exists ((i, j), v).
  - intros ([k v] & -> & Hv). by exists v.
Qed.

(** X20.  The matrix [read_matrix] returns stores one entry for every
    distinct coordinate of the dataset, rows that repeat a coordinate
    being merged: never more entries than rows, and as many as rows when
    no coordinate repeats. *)
Theorem X20_read_matrix_entry_count (dataset : list (Z * Z * Z)) (A : Sparse.csr Z) :
  ReadMatrix.read_matrix (ReadMatrix.IntRows dataset) = Ok A →
  Sparse.nnz A = length (remove_dups dataset.*1)
  ∧ (Sparse.nnz A ≤ length dataset)%nat
  ∧ (NoDup dataset.*1 → Sparse.nnz A = length dataset).
Proof.
  intros HA%read_matrix_dom.
  assert (Sparse.nnz A = length (remove_dups dataset.*1)) as Hnnz.
  { unfold Sparse.nnz. rewrite <- size_dom, HA.
    rewrite <- (size_list_to_set (C := gset (Z * Z)) (remove_dups dataset.*1))
      by apply NoDup_remove_dups.
    f_equal. apply set_eq. intros k.
    by rewrite !elem_of_list_to_set, elem_of_remove_dups. }
  split; [done |]. rewrite Hnnz. split.
  - rewrite <- (length_fmap fst dataset). apply remove_dups_length_le.
  - intros Hnd. by rewrite remove_dups_NoDup_id, length_fmap.
Qed.

Lemma X19_read_matrix_fails_iff_witness :
  (∃ A, ReadMatrix.read_matrix (ReadMatrix.IntRows [((3, 0), 5)]) = Ok A)
  ∧ ReadMatrix.read_matrix
      (ReadMatrix.FloatRows [((Float64.of_int 3, Float64.of_int 0), one_half)])
    = Raise TypeError.
Proof.
  split.
  - apply (proj1 X19_read_matrix_fails_iff [((3, 0), 5)]).
    split; [done | by repeat constructor].
  - apply (proj1 (proj2 (proj2 (proj2 X19_read_matrix_fails_iff)))).
Defined.

Lemma X20_read_matrix_entry_count_witness :
  ∃ A, ReadMatrix.read_matrix (ReadMatrix.IntRows [((0, 5), 7); ((2, 1), 3); ((0, 5), 4)])
       = Ok A
       ∧ Sparse.nnz A = 2%nat.
Proof.
  eexists. split; [by vm_compute |].
  exact (proj1 (X20_read_matrix_entry_count
                  [((0, 5), 7); ((2, 1), 3); ((0, 5), 4)] _ eq_refl)).
Defined.

(** ** [sampling] *)

Section SamplingComposition.

Context {K num : Type}.
Variable add : num → num → num.
Variable leb : num → num → bool.

Lemma cumulative_from_snoc (score : num) (probs : list (K * num)) (i : nat)
    (key : K) (w : num) :
  probs !! i = Some (key, w) →
  cumulative_from add score probs (S i) = add (cumulative_from add score probs i) w.
Proof.
  intros Hi. unfold cumulative_from.
  by rewrite (take_S_r _ _ _ Hi), foldl_app.
Qed.

Lemma cumulative_from_all (score : num) (probs more : list (K * num)) :
  cumulative_from add score (probs ++ more) (length probs)
  = cumulative_from add score probs (length probs).
Proof. unfold cumulative_from. by rewrite take_app_length, firstn_all. Qed.

(** The loop over a concatenation is the loop over the first part and,
    if that finds no key, the loop over the second part from the weight
    accumulated so far. *)
Lemma loop_app (prob score : num) (probs1 probs2 : list (K * num)) :
  Sampling.loop_with add leb prob score (probs1 ++ probs2)
  = match Sampling.loop_with add leb prob score probs1 with
    | Ok key => Ok key
    | Raise _ =>
        Sampling.loop_with add leb prob
          (cumulative_from add score probs1 (length probs1)) probs2
    end.
Proof.
  revert score. induction probs1 as [|[k v] probs1 IH]; intros score; [done |].
  cbn [app Sampling.loop_with length]. destruct (leb prob (add score v)); [done |].
  rewrite IH. by rewrite cumulative_from_cons.
Qed.

(** A key other than the first is returned only if adding its weight
    takes the accumulated weight from below the draw to the draw or
    above; a weight that cannot do so is the weight of no returned key
    but the first. *)
Lemma sampled_weight_not_inert (inert : num → Prop) (zero : num)
    (probs : list (K * num)) (prob : num) (key : K) :
  (∀ p c w, inert w → leb p (add c w) = true → leb p c = true) →
  Sampling.sampling_with add leb zero probs prob = Ok key →
  ∃ (i : nat) (w : num), probs !! i = Some (key, w) ∧ (i = 0%nat ∨ ¬ inert w).
Proof.
  intros Hlaw. unfold Sampling.sampling_with.
  intros (i & w & Hi & Hreach & Hmin)%loop_Ok.
  exists i, w. split; [done |].
  destruct i as [|i]; [by left |]. right. intros Hw.
  rewrite (cumulative_from_snoc _ _ _ _ _ Hi) in Hreach.
  specialize (Hmin i ltac:(lia)).
  apply (Hlaw _ _ _ Hw) in Hreach. congruence.
Qed.

End SamplingComposition.

(** Adding a zero changes no comparison of floats. *)
Lemma Float64_add_zero (p c : Float64.t) (s : bool) :
  Float64.leb p (Float64.add c (S754_zero s)) = Float64.leb p c.
Proof.
  destruct c as [sc|sc| |sc mc ec]; try reflexivity.
  destruct sc, s, p as [sp|sp| |sp mp ep]; reflexivity.
Qed.

(** X21.  The key [sampling] returns is a key of the mapping, and unless
    it is the first key its weight is not zero: a later key of weight
    zero is never returned.  With exact additions in place of the float
    ones, the weight of a later key that is returned is positive: there, a
    later key of weight zero or less is never returned. *)
Theorem X21_sampled_key_has_positive_weight {K : Type} (key : K) :
  (∀ (probs : list (K * Float64.t)) (prob : Float64.t),
     Sampling.sampling probs prob = Ok key →
     ∃ (i : nat) (w : Float64.t),
       probs !! i = Some (key, w) ∧ (i = 0%nat ∨ ∀ s, w ≠ S754_zero s))
  ∧ (∀ (probs : list (K * Q)) (prob : Q),
       exact_sampling probs prob = Ok key →
       ∃ (i : nat) (w : Q), probs !! i = Some (key, w) ∧ (i = 0%nat ∨ Qlt 0 w)).
Proof.
  split.
  - intros probs prob Hrun.
    destruct (sampled_weight_not_inert Float64.add Float64.leb
                (λ w, ∃ s, w = S754_zero s) Float64.zero probs prob key)
      as (i & w & Hi & Hw); [| done |].
    + intros p c w [s ->]. by rewrite Float64_add_zero.
    + exists i, w. split; [done |]. destruct Hw as [->|Hw]; [by left | right].
      intros s ->. apply Hw. by exists s.
  - intros probs prob Hrun.
    destruct (sampled_weight_not_inert Qplus Qle_bool (λ w, Qle w 0) 0%Q probs prob key)
      as (i & w & Hi & Hw); [| done |].
    + intros p c w Hw Hp. apply Qle_bool_iff. apply Qle_bool_iff in Hp. lra.
    + exists i, w. split; [done |]. destruct Hw as [->|Hw]; [by left | right].
      destruct (Qlt_le_dec 0 w); [done | by destruct Hw].
Qed.

(** X22.  Sampling from a mapping extended by further items: a key found
    among the first items is returned whatever follows them; otherwise the
    search goes on through the further items from the weight the first
    items accumulate. *)
Theorem X22_sampling_of_extended_mapping
    {K : Type} (probs more : list (K * Float64.t)) (prob : Float64.t) :
  Sampling.sampling (probs ++ more) prob
  = match Sampling.sampling probs prob with
    | Ok key => Ok key
    | Raise _ =>
        Sampling.loop_with Float64.add Float64.leb prob
          (cumulative probs (length probs)) more
    end.
Proof. unfold Sampling.sampling, Sampling.sampling_with, cumulative. apply loop_app. Qed.

Lemma X21_sampled_key_has_positive_weight_witness :
  Sampling.sampling [(10, one_quarter); (20, Float64.zero); (30, one_half)] one_half
  = Ok 30
  ∧ ∃ (i : nat) (w : Float64.t),
      [(10, one_quarter); (20, Float64.zero); (30, one_half)] !! i = Some (30, w)
      ∧ (i = 0%nat ∨ ∀ s, w ≠ S754_zero s).
Proof.
  assert (Sampling.sampling [(10, one_quarter); (20, Float64.zero); (30, one_half)]
            one_half = Ok 30) as Hrun by (by vm_compute).
  split; [exact Hrun |].
  exact (proj1 (X21_sampled_key_has_positive_weight 30) _ _ Hrun).
Defined.

(** ** The default configuration *)

(** X23.  With the default options the constructor returns on every edge
    list whose node ids are [0 .. N-1], whatever the draws: the window of
    3 is no wider than the walks of 80 nodes.  The corpus then holds 10
    walks per node, each of exactly 80 nodes, and the matrix has the shape
    [(N, N)]. *)
Theorem X23_default_configuration_runs
    (rng : nat → nat) (edgelist : list (Z * Z)) :
  dense_labels edgelist →
  ∃ d,
    DeepWalker.init default_args rng edgelist = Ok d
    ∧ length (DeepWalker.walks d) = (10 * node_count edgelist)%nat
    ∧ Forall (λ walk, length walk = 80%nat) (DeepWalker.walks d)
    ∧ Sparse.csr_shape (DeepWalker.A d)
      = (Z.of_nat (node_count edgelist), Z.of_nat (node_count edgelist)).
Proof.
  intros Hdense.
  destruct (init_total default_args rng edgelist Hdense) as [d Hd];
    [left; simpl; lia |].
  exists d. split; [done |].
  pose proof Hd as (_ & _ & _ & Hproc)%init_Ok_inv.
  apply do_processing_Ok_inv in Hproc as (_ & _ & Hshape & _).
  pose proof Hd as (_ & Hsh & _)%init_Ok_inv.
  destruct (do_walks_layout default_args rng edgelist 0%nat)
    as (walks & s' & Hrun & _ & Hcount & Hlens & _).
  unfold DeepWalker.init in Hd. rewrite Hrun in Hd. simpl in Hd.
  apply bind_Ok in Hd as (A & _ & [= <-]). simpl in *.
  split; [done |]. split; [| by rewrite Hshape].
  eapply Forall_impl; [exact Hlens |]. intros walk Hw. simpl in Hw. lia.
Qed.

Lemma X23_default_configuration_runs_witness :
  ∃ d, DeepWalker.init default_args (λ n, n) triangle = Ok d
       ∧ length (DeepWalker.walks d) = 30%nat.
Proof.
  destruct (X23_default_configuration_runs (λ n, n) triangle) as (d & Hd & Hlen & _).
  - unfold dense_labels. by vm_compute; repeat constructor.
  - exists d. split; [exact Hd | exact Hlen].
Defined.
